(** * The logging runtime of pkg/infra/log: registry, filters, lifecycle

    A shallow embedding of the log manager (registry of named loggers),
    of the level tables and of the configuration entry points
    [Close], [Reload] and [ReadLoggingConfig], with the properties the
    design document states about them. *)

From Stdlib Require Import Ascii.
From stdpp Require Import base option list gmap strings sorting.

(* String literals are read as strings; [++] and [≤] stay those of lists
   and numbers. *)
Open Scope string_scope.
Open Scope nat_scope.
Open Scope list_scope.

(** ** Values, levels and loggers *)

(** A Go [error]: a message, possibly wrapping a cause. *)
Inductive Error :=
| ErrText (msg : string)
| ErrWrapped (msg : string) (cause : Error).

#[global] Instance Error_eq_dec : EqDecision Error.
Proof. solve_decision. Defined.

(** A Go [interface{}] value as it occurs in a context list: the code
    only ever distinguishes strings (type assertion [ctx[0].(string)],
    comparison with "logger") and [nil] (the padding value) from the
    rest; errors are passed as values when a failure is logged. *)
Inductive Value :=
| VString (s : string)
| VNil
| VErr (e : Error)
| VOther (n : nat).

#[global] Instance Value_eq_dec : EqDecision Value.
Proof. solve_decision. Defined.

(** [level.Value]: the severities a record can carry. *)
Inductive Level := DebugValue | InfoValue | WarnValue | ErrorValue.

(** [level.Option]: the filter options the level table hands out. *)
Inductive LevelOption := AllowDebug | AllowInfo | AllowWarn | AllowError.

#[global] Instance Level_eq_dec : EqDecision Level.
Proof. solve_decision. Defined.
#[global] Instance LevelOption_eq_dec : EqDecision LevelOption.
Proof. solve_decision. Defined.

(** The line formats [getLogFormat] chooses between. *)
Inductive Format := TerminalLogger | LogfmtLogger | JSONLogger.

#[global] Instance Format_eq_dec : EqDecision Format.
Proof. solve_decision. Defined.

(** Output destinations: [format(os.Stderr)] installed by [init],
    [format(os.Stdout)] of the console mode, the file writer (with its
    [Filename] and [Format] fields; the rotation settings play no role
    in the control flow and are left out) and the syslog handler. *)
Inductive Handler :=
| HStderr (format : Format)
| HConsole (format : Format)
| HFile (Filename : string) (format : Format)
| HSyslog (format : Format).

#[global] Instance Handler_eq_dec : EqDecision Handler.
Proof. solve_decision. Defined.

#[local] Set Warnings "-register-all".

(** A [gokitlog.Logger] value, as the terms the code builds:
    a handler's writer, [level.NewFilter], [&compositeLogger{...}] and
    [gokitlog.With]. *)
Inductive Logger :=
| Sink (h : Handler)
| NewFilter (next : Logger) (o : LevelOption)
| Composite (loggers : list Logger)
| With (l : Logger) (ctx : list Value).

(** A record as the design document has it: a severity and the ordered
    key/value sequence. *)
Record LogRecord := { rec_level : Level; rec_keyvals : list Value }.

Definition ordinal (l : Level) : nat :=
  match l with DebugValue => 0 | InfoValue => 1 | WarnValue => 2 | ErrorValue => 3 end.

Definition threshold (o : LevelOption) : Level :=
  match o with
  | AllowDebug => DebugValue | AllowInfo => InfoValue
  | AllowWarn => WarnValue | AllowError => ErrorValue
  end.

(** Modelled from the spec: the level package (pkg/infra/log/level) is
    not among the sources. "allow(level, threshold) -> bool, true iff
    level >= threshold." *)
Definition allow (l : Level) (o : LevelOption) : bool :=
  bool_decide (ordinal (threshold o) ≤ ordinal l).

(** Modelled from the spec: what a write through a logger term delivers,
    as the list of (handler, key/values) writes in fan-out order.  The
    filter gates the record, the composite "fans the record to every
    member sink's filter+write in configured order", and a contextual
    logger "prepends its bound fixed context". *)
Fixpoint Log (lg : Logger) (r : LogRecord) : list (Handler * list Value) :=
  match lg with
  | Sink h => [(h, rec_keyvals r)]
  | NewFilter next o => if allow (rec_level r) o then Log next r else []
  | Composite ls => (fix fan (ls : list Logger) :=
                       match ls with
                       | [] => []
                       | l :: ls' => Log l r ++ fan ls'
                       end) ls
  | With l ctx => Log l {| rec_level := rec_level r; rec_keyvals := ctx ++ rec_keyvals r |}
  end.

(** ** The level table *)

(** [logLevels]: the map literal, key by key. *)
Definition logLevels : gmap string LevelOption :=
  <["critical" := AllowError]>
  (<["error" := AllowError]>
  (<["warn" := AllowWarn]>
  (<["info" := AllowInfo]>
  (<["debug" := AllowDebug]>
  (<["trace" := AllowDebug]> ∅))))).

(** ** Observable actions *)

(** What the package does to the outside world, in program order:
    writes through the root logger ([level.Error(root).Log(...)]) and
    the calls on handlers and on the file system whose result decides
    the control flow. *)
Inductive Event :=
| EvRootLog (lvl : Level) (keyvals : list Value)
| EvClose (h : Handler)
| EvReload (h : Handler)
| EvMkdirAll (dpath : string)
| EvInit (fileName : string).

(** ** State of the package *)

(** [ConcreteLogger]: the bound context and the current delegate. *)
Record ConcreteLogger := { ctx : list Value; logger : Logger }.

(** [LogWithFilters]: a sink with its default threshold and the
    per-name overrides. *)
Record LogWithFilters := {
  val : Logger;
  filters : gmap string LevelOption;
  maxLevel : LevelOption
}.

(** [logManager]. The embedded [*ConcreteLogger] and the values of
    [loggersByName] are pointers: addresses into the heap of the state. *)
Record logManager := {
  lm_ConcreteLogger : nat;
  loggersByName : gmap string nat;
  logFilters : list LogWithFilters
}.

(** The package-level variables, the heap of [ConcreteLogger] objects
    (an object's address is its index; objects are never freed) and the
    actions performed so far. *)
Record State := {
  heap : list ConcreteLogger;
  root : logManager;
  loggersToClose : list Handler;
  loggersToReload : list Handler;
  trace : list Event
}.

#[global] Instance ConcreteLogger_inhabited : Inhabited ConcreteLogger :=
  populate {| ctx := []; logger := Composite [] |}.

(** What the package calls outside itself: string functions of the Go
    library and of pkg/util, the terminal test of [getLogFormat], and
    the result of an action on a handler or on the file system, which
    may depend on everything done before. *)
Record Externals := {
  ToLower : string → string;
  TrimSpace : string → string;
  SplitString : string → list string;
  Join : string → string → string;
  Dir : string → string;
  IsTerminal : bool;
  outcome : list Event → Event → option Error
}.

(** A state-passing monad for the code that reads and writes the
    package variables. *)
Definition M (A : Type) : Type := State → A * State.

Definition ret {A} (a : A) : M A := λ s, (a, s).
Definition bind {A B} (m : M A) (k : A → M B) : M B :=
  λ s, let '(a, s') := m s in k a s'.

Notation "'do' x <- c ; k" := (bind c (λ x, k))
  (at level 10, x name, c at level 100, k at level 200).
Notation "'do' ' p <- c ; k" := (bind c (λ x, match x with p => k end))
  (at level 10, p pattern, c at level 100, k at level 200).
Notation "c ;; k" := (bind c (λ _, k))
  (at level 100, k at level 200, right associativity).

Definition gets {A} (f : State → A) : M A := λ s, (f s, s).
Definition modify (f : State → State) : M unit := λ s, (tt, f s).

Definition set_heap (h : list ConcreteLogger) (s : State) : State :=
  {| heap := h; root := root s; loggersToClose := loggersToClose s;
     loggersToReload := loggersToReload s; trace := trace s |}.
Definition set_root (lm : logManager) (s : State) : State :=
  {| heap := heap s; root := lm; loggersToClose := loggersToClose s;
     loggersToReload := loggersToReload s; trace := trace s |}.
Definition set_loggersToClose (l : list Handler) (s : State) : State :=
  {| heap := heap s; root := root s; loggersToClose := l;
     loggersToReload := loggersToReload s; trace := trace s |}.
Definition set_loggersToReload (l : list Handler) (s : State) : State :=
  {| heap := heap s; root := root s; loggersToClose := loggersToClose s;
     loggersToReload := l; trace := trace s |}.
Definition set_trace (t : list Event) (s : State) : State :=
  {| heap := heap s; root := root s; loggersToClose := loggersToClose s;
     loggersToReload := loggersToReload s; trace := t |}.

(** [level.Error(root).Log(keyvals...)], the result dropped. *)
Definition rootError (keyvals : list Value) : M unit :=
  modify (λ s, set_trace (trace s ++ [EvRootLog ErrorValue keyvals]) s).

(** ** Contextual loggers and the registry *)

(** [newConcreteLogger(logger, ctx...)], the object before allocation. *)
Definition newConcreteLogger (lg : Logger) (c : list Value) : ConcreteLogger :=
  match c with
  | [] => {| ctx := []; logger := lg |}
  | _ :: _ => {| ctx := c; logger := With lg c |}
  end.

(** [&ConcreteLogger{...}]: the new object gets the next address. *)
Definition alloc (cl : ConcreteLogger) : M nat :=
  λ s, (length (heap s), set_heap (heap s ++ [cl]) s).

(** [*p] for a pointer held by the package: such a pointer is never nil
    and always in the heap (see [wf]), so the default is never read. *)
Definition deref (s : State) (p : nat) : ConcreteLogger := heap s !!! p.

(** [cl.SetLogger(logger)]. *)
Definition SetLogger (p : nat) (lg : Logger) : M unit :=
  modify (λ s, set_heap
    (alter (λ cl, {| ctx := ctx cl; logger := With lg (ctx cl) |}) p (heap s)) s).

(** [cl.GetLogger()]. *)
Definition GetLogger (p : nat) : M Logger := gets (λ s, logger (deref s p)).

(** [cl.Log(keyvals...)]: the write goes to the delegate installed at
    the time of the call. *)
Definition ConcreteLogger_Log (p : nat) (r : LogRecord) (s : State)
  : list (Handler * list Value) :=
  Log (logger (deref s p)) r.

(** [newManager(logger)] on an empty heap, as [init] calls it. *)
Definition newManager (lg : Logger) : State :=
  {| heap := [newConcreteLogger lg []];
     root := {| lm_ConcreteLogger := 0; loggersByName := ∅; logFilters := [] |};
     loggersToClose := []; loggersToReload := []; trace := [] |}.

(** The filter [initialize] builds for one sink and one name
    (lines 86-90). *)
Definition initialize_filter (name : string) (l : LogWithFilters) : Logger :=
  match filters l !! name with
  | None => NewFilter (val l) (maxLevel l)
  | Some filterLevel => NewFilter (val l) filterLevel
  end.

(** The body of the loop over the sorted names (lines 82-94). The names
    are the keys of the map, so the lookup always finds a pointer. *)
Fixpoint initialize_names (loggers : list LogWithFilters) (names : list string)
  : M unit :=
  match names with
  | [] => ret tt
  | name :: names' =>
      let ctxLoggers := map (initialize_filter name) loggers in
      do byName <- gets (λ s, loggersByName (root s));
      match byName !! name with
      | Some p => SetLogger p (Composite ctxLoggers)
      | None => ret tt
      end ;;
      initialize_names loggers names'
  end.

(** [lm.initialize(loggers)]. *)
Definition initialize (loggers : list LogWithFilters) : M unit :=
  let defaultLoggers := map (λ l, NewFilter (val l) (maxLevel l)) loggers in
  do lm <- gets root;
  SetLogger (lm_ConcreteLogger lm) (Composite defaultLoggers) ;;
  modify (set_root {| lm_ConcreteLogger := lm_ConcreteLogger lm;
                      loggersByName := loggersByName lm;
                      logFilters := loggers |}) ;;
  let names := merge_sort String.le (map_to_list (loggersByName lm)).*1 in
  initialize_names loggers names.

(** The filter [New] builds for one sink and one name (lines 141-146). *)
Definition New_filter (loggerName : string) (logWithFilter : LogWithFilters) : Logger :=
  match filters logWithFilter !! loggerName with
  | Some filterLevel => NewFilter (val logWithFilter) filterLevel
  | None => NewFilter (val logWithFilter) (maxLevel logWithFilter)
  end.

(** Registration of a new object under a name. *)
Definition register (loggerName : string) (p : nat) : M unit :=
  modify (λ s, set_root {| lm_ConcreteLogger := lm_ConcreteLogger (root s);
                           loggersByName := <[loggerName := p]> (loggersByName (root s));
                           logFilters := logFilters (root s) |} s).

(** [lm.New(ctx...)]. *)
Definition New (c : list Value) : M nat :=
  do lm <- gets root;
  match c with
  | [] => ret (lm_ConcreteLogger lm)
  | VString loggerName :: _ =>
      match loggersByName lm !! loggerName with
      | Some p => ret p
      | None =>
          let c' := VString "logger" :: c in
          match logFilters lm with
          | [] =>
              do lg <- GetLogger (lm_ConcreteLogger lm);
              do ctxLogger <- alloc (newConcreteLogger lg c');
              register loggerName ctxLogger ;;
              ret ctxLogger
          | _ :: _ =>
              let compositeLogger := Composite (map (New_filter loggerName) (logFilters lm)) in
              do ctxLogger <- alloc (newConcreteLogger compositeLogger c');
              register loggerName ctxLogger ;;
              ret ctxLogger
          end
      end
  | _ :: _ => ret (lm_ConcreteLogger lm)
  end.

(** The loop of [ConcreteLogger.New] over the pairs of the (padded)
    context: pairs whose key is "logger" are dropped. *)
Fixpoint withoutLogger (c : list Value) : list Value :=
  match c with
  | k :: v :: c' =>
      if decide (k = VString "logger") then withoutLogger c'
      else k :: v :: withoutLogger c'
  | _ => []
  end.

(** [cl.New(ctx...)]. The call [root.New()] of the first branch has its
    result dropped, as in the source. *)
Definition ConcreteLogger_New (p : nat) (c : list Value) : M nat :=
  (if decide (length c = 0) then (New [] ;; ret tt) else ret tt) ;;
  do cl <- gets (λ s, deref s p);
  (if decide (length (ctx cl) `mod` 2 = 1)
   then modify (λ s, set_heap
          (alter (λ cl, {| ctx := ctx cl ++ [VNil]; logger := logger cl |}) p (heap s)) s)
   else ret tt) ;;
  do cl <- gets (λ s, deref s p);
  let keyvals := withoutLogger (ctx cl) ++ c in
  New keyvals.

(** ** Level names, filters and formats *)

(** [strings.Split(s, ":")]. *)
Fixpoint Split_colon (s : string) : list string :=
  match s with
  | EmptyString => [""]
  | String c s' =>
      if decide (c = ":"%char) then "" :: Split_colon s'
      else match Split_colon s' with
           | part :: parts => String c part :: parts
           | [] => [String c ""]
           end
  end.

(** An [ini.File]: section name to key to raw value, with the accessors
    the code uses. [Section] and [Key] of a missing name give an empty
    one; [MustString] falls back on the default for a missing or empty
    value. *)
Abbreviation File := (gmap string (gmap string string)).

Definition GetSection (cfg : File) (name : string) : Error + gmap string string :=
  match cfg !! name with
  | Some sec => inr sec
  | None => inl (ErrText ("section " +:+ name +:+ " does not exist"))
  end.

Definition Section_ (cfg : File) (name : string) : gmap string string :=
  default ∅ (cfg !! name).

Definition Key_String (sec : gmap string string) (key : string) : string :=
  default "" (sec !! key).

Definition MustString (sec : gmap string string) (key defaultVal : string) : string :=
  match sec !! key with
  | Some v => if decide (v = "") then defaultVal else v
  | None => defaultVal
  end.

(** Modelled from the spec: errutil.Wrapf (pkg/util/errutil) is not
    among the sources. An unknown mode is "propagated as a hard
    failure": wrapping an error gives an error carrying the message. *)
Definition Wrapf (err : Error) (msg : string) : Error := ErrWrapped msg err.

(** [getLogLevelFromString]. *)
Definition getLogLevelFromString (levelName : string) : M LevelOption :=
  match logLevels !! levelName with
  | None =>
      rootError [VString "Unknown log level"; VString "level"; VString levelName] ;;
      ret AllowError
  | Some loglevel => ret loglevel
  end.

(** [getFilters]: the loop over the filter strings, in order. *)
Fixpoint getFilters_loop (filterStrArray : list string)
    (filterMap : gmap string LevelOption) : M (gmap string LevelOption) :=
  match filterStrArray with
  | [] => ret filterMap
  | filterStr :: rest =>
      match Split_colon filterStr with
      | part0 :: part1 :: _ =>
          do lvl <- getLogLevelFromString part1;
          getFilters_loop rest (<[part0 := lvl]> filterMap)
      | _ => getFilters_loop rest filterMap
      end
  end.

Definition getFilters (filterStrArray : list string) : M (gmap string LevelOption) :=
  getFilters_loop filterStrArray ∅.

(** The loop joining the default filters into the mode filters
    (lines 448-452): a default is added only for a name the mode does
    not have. *)
Definition joinFilters (defaultFilters modeFilters : gmap string LevelOption)
  : gmap string LevelOption :=
  map_fold (λ key value acc,
              match acc !! key with
              | None => <[key := value]> acc
              | Some _ => acc
              end) modeFilters defaultFilters.

Inductive ModeResult :=
| Configured (handler : LogWithFilters)
| Skipped
| Failed (err : Error)
| Uninitialized (mode : string).

Inductive LoopResult :=
| LoopDone (configLoggers : list LogWithFilters)
| LoopReturn (err : Error)
| LoopPanic (mode : string).

(** How a call of [ReadLoggingConfig] ends: it returns (nil or an
    error) or it panics on a mode without handler. *)
Inductive Outcome :=
| Return (err : option Error)
| Panic (mode : string).

Section Config.

Variable ext : Externals.

(** An action whose result the code inspects. *)
Definition perform (e : Event) : M (option Error) :=
  λ s, (outcome ext (trace s) e, set_trace (trace s ++ [e]) s).

(** [getLogLevelFromConfig]. *)
Definition getLogLevelFromConfig (key defaultName : string) (cfg : File)
  : M (string * LevelOption) :=
  let levelName := MustString (Section_ cfg key) "level" defaultName in
  let levelName := ToLower ext levelName in
  do lvl <- getLogLevelFromString levelName;
  ret (levelName, lvl).

(** [getLogFormat]. *)
Definition getLogFormat (format : string) : Format :=
  if decide (format = "console") then
    (if IsTerminal ext then TerminalLogger else LogfmtLogger)
  else if decide (format = "text") then LogfmtLogger
  else if decide (format = "json") then JSONLogger
  else LogfmtLogger.

(** [init]: the console format on standard error at info level. *)
Definition init : State :=
  newManager (NewFilter (Sink (HStderr (getLogFormat "console"))) AllowInfo).

(** The loop of [Close]: every handler is closed, the first error is
    kept. *)
Fixpoint Close_loop (hs : list Handler) (err : option Error) : M (option Error) :=
  match hs with
  | [] => ret err
  | h :: hs' =>
      do e <- perform (EvClose h);
      Close_loop hs' (match e, err with
                      | Some _, None => e
                      | _, _ => err
                      end)
  end.

(** [Close]. *)
Definition Close : M (option Error) :=
  do hs <- gets loggersToClose;
  do err <- Close_loop hs None;
  modify (set_loggersToClose []) ;;
  ret err.

(** The loop of [Reload]. *)
Fixpoint Reload_loop (hs : list Handler) : M (option Error) :=
  match hs with
  | [] => ret None
  | h :: hs' =>
      do e <- perform (EvReload h);
      match e with
      | Some err => ret (Some err)
      | None => Reload_loop hs'
      end
  end.

(** [Reload]. *)
Definition Reload : M (option Error) :=
  do hs <- gets loggersToReload;
  Reload_loop hs.

(** The [switch mode] of [ReadLoggingConfig]: [None] is the
    [continue] of a file handler that could not be set up, otherwise
    the value of [handler.val], nil for a mode without case. *)
Definition buildHandler (mode logsPath : string) (sec : gmap string string)
    (format : Format) : M (option (option Logger)) :=
  if decide (mode = "console") then ret (Some (Some (Sink (HConsole format))))
  else if decide (mode = "file") then
    let fileName := MustString sec "file_name" (Join ext logsPath "grafana.log") in
    let dpath := Dir ext fileName in
    do e <- perform (EvMkdirAll dpath);
    match e with
    | Some err =>
        rootError [VString "Failed to create directory"; VString "dpath";
                   VString dpath; VString "err"; VErr err] ;;
        ret None
    | None =>
        let fileHandler := HFile fileName format in
        do e <- perform (EvInit fileName);
        match e with
        | Some err =>
            rootError [VString "Failed to initialize file handler"; VString "dpath";
                       VString dpath; VString "err"; VErr err] ;;
            ret None
        | None =>
            modify (λ s, set_loggersToClose (loggersToClose s ++ [fileHandler]) s) ;;
            modify (λ s, set_loggersToReload (loggersToReload s ++ [fileHandler]) s) ;;
            ret (Some (Some (Sink fileHandler)))
        end
    end
  else if decide (mode = "syslog") then
    let sysLogHandler := HSyslog format in
    modify (λ s, set_loggersToClose (loggersToClose s ++ [sysLogHandler]) s) ;;
    ret (Some (Some (Sink sysLogHandler)))
  else ret (Some None).

(** The body of the loop over the modes (lines 397-456). *)
Definition configureMode (defaultLevelName : string)
    (defaultFilters : gmap string LevelOption) (logsPath : string) (cfg : File)
    (mode : string) : M ModeResult :=
  let mode := TrimSpace ext mode in
  match GetSection cfg ("log." +:+ mode) with
  | inl err =>
      rootError [VString "Unknown log mode"; VString "mode"; VString mode] ;;
      ret (Failed (Wrapf err ("failed to get config section log." +:+ mode)))
  | inr sec =>
      do '(_, leveloption) <- getLogLevelFromConfig ("log." +:+ mode) defaultLevelName cfg;
      do modeFilters <- getFilters (SplitString ext (Key_String sec "filters"));
      let format := getLogFormat (MustString sec "format" "") in
      do built <- buildHandler mode logsPath sec format;
      match built with
      | None => ret Skipped
      | Some None => ret (Uninitialized mode)
      | Some (Some v) =>
          ret (Configured {| val := v;
                             filters := joinFilters defaultFilters modeFilters;
                             maxLevel := leveloption |})
      end
  end.

(** The loop over the modes, with the handlers configured so far. *)
Fixpoint configureModes (defaultLevelName : string)
    (defaultFilters : gmap string LevelOption) (logsPath : string) (cfg : File)
    (modes : list string) (configLoggers : list LogWithFilters) : M LoopResult :=
  match modes with
  | [] => ret (LoopDone configLoggers)
  | mode :: modes' =>
      do r <- configureMode defaultLevelName defaultFilters logsPath cfg mode;
      match r with
      | Configured handler =>
          configureModes defaultLevelName defaultFilters logsPath cfg modes'
                         (configLoggers ++ [handler])
      | Skipped =>
          configureModes defaultLevelName defaultFilters logsPath cfg modes' configLoggers
      | Failed err => ret (LoopReturn err)
      | Uninitialized m => ret (LoopPanic m)
      end
  end.

(** [ReadLoggingConfig]. *)
Definition ReadLoggingConfig (modes : list string) (logsPath : string) (cfg : File)
  : M Outcome :=
  do err <- Close;
  match err with
  | Some e => ret (Return (Some e))
  | None =>
      do '(defaultLevelName, _) <- getLogLevelFromConfig "log" "info" cfg;
      do defaultFilters <-
        getFilters (SplitString ext (Key_String (Section_ cfg "log") "filters"));
      do r <- configureModes defaultLevelName defaultFilters logsPath cfg modes [];
      match r with
      | LoopReturn e => ret (Return (Some e))
      | LoopPanic m => ret (Panic m)
      | LoopDone configLoggers =>
          (if decide (0 < length configLoggers) then initialize configLoggers
           else ret tt) ;;
          ret (Return None)
      end
  end.

End Config.

(** ** Notions used in the statements *)

(** The names the table knows. *)
Definition knownLevelNames : list string :=
  ["trace"; "debug"; "info"; "warn"; "error"; "critical"].

(** The result of each call when an action is performed on every
    handler of a list in order, after the history [tr]. *)
Fixpoint outcomes (ext : Externals) (act : Handler → Event) (tr : list Event)
    (hs : list Handler)
  : list (option Error) :=
  match hs with
  | [] => []
  | h :: hs' => outcome ext tr (act h) :: outcomes ext act (tr ++ [act h]) hs'
  end.

(** What holds of every state the package can be in: the pointers it
    holds are in the heap, and two names never share an object. *)
Record wf (s : State) : Prop := {
  wf_root : lm_ConcreteLogger (root s) < length (heap s);
  wf_names : ∀ name p, loggersByName (root s) !! name = Some p → p < length (heap s);
  wf_inj : ∀ n1 n2 p,
      loggersByName (root s) !! n1 = Some p →
      loggersByName (root s) !! n2 = Some p → n1 = n2
}.

(** The update [SetLogger] makes to an object. *)
Definition swap_delegate (lg : Logger) (cl : ConcreteLogger) : ConcreteLogger :=
  {| ctx := ctx cl; logger := With lg (ctx cl) |}.

(** The heap after the loop of [initialize] over [names]. *)
Definition rebuild (byName : gmap string nat) (loggers : list LogWithFilters)
    (h : list ConcreteLogger) (name : string) : list ConcreteLogger :=
  match byName !! name with
  | Some p => alter (swap_delegate (Composite (map (initialize_filter name) loggers))) p h
  | None => h
  end.

(** The delegate [New] wraps for an unseen name: the root's current
    delegate while no sink list is installed, else the composite of the
    installed sinks filtered for the name. *)
Definition New_base (s : State) (loggerName : string) : Logger :=
  match logFilters (root s) with
  | [] => logger (deref s (lm_ConcreteLogger (root s)))
  | _ :: _ => Composite (map (New_filter loggerName) (logFilters (root s)))
  end.

(** A sequence of reconfigurations, applied in order. *)
Fixpoint initialize_all (configs : list (list LogWithFilters)) : M unit :=
  match configs with
  | [] => ret tt
  | loggers :: configs' => initialize loggers ;; initialize_all configs'
  end.

(** The rule in the words of the design document: "if the descriptor's
    override map contains the requested name, use that threshold; else
    use the descriptor's own default threshold". *)
Definition thresholdFor (l : LogWithFilters) (name : string) : LevelOption :=
  match filters l !! name with
  | Some override => override
  | None => maxLevel l
  end.

(** A key/value list read as pairs, the way the loop of
    [ConcreteLogger.New] walks it. *)
Fixpoint pairs (c : list Value) : list (Value * Value) :=
  match c with
  | k :: v :: c' => (k, v) :: pairs c'
  | _ => []
  end.

(** The context [ConcreteLogger.New] reads after padding. *)
Definition padded (c : list Value) : list Value :=
  if decide (length c `mod` 2 = 1) then c ++ [VNil] else c.

(** A registry with one named logger, "db", created through the root
    before any configuration. *)
Definition registry_db : State :=
  (New [VString "db"]
       (newManager (NewFilter (Sink (HStderr LogfmtLogger)) AllowInfo))).2.

(** A computation that only writes to the trace. *)
Definition logs_only {A} (m : M A) : Prop :=
  ∀ s, (m s).2 = set_trace (trace (m s).2) s.

(** A computation that leaves the registry (heap and manager) alone. *)
Definition keeps_registry {A} (m : M A) : Prop :=
  ∀ s, heap (m s).2 = heap s ∧ root (m s).2 = root s.

(** The error [ReadLoggingConfig] returns for a mode without section. *)
Definition unknownModeError (mode : string) : Error :=
  Wrapf (ErrText ("section " +:+ ("log." +:+ mode) +:+ " does not exist"))
        ("failed to get config section log." +:+ mode).

(** The record written through the root logger for such a mode. *)
Definition unknownModeRecord (mode : string) : Event :=
  EvRootLog ErrorValue [VString "Unknown log mode"; VString "mode"; VString mode].

(** The modes the [switch] has a case for. *)
Definition handledModes : list string := ["console"; "file"; "syslog"].

(** The records written through the root logger when the file handler
    cannot be set up. *)
Definition mkdirFailedRecord (dpath : string) (err : Error) : Event :=
  EvRootLog ErrorValue [VString "Failed to create directory"; VString "dpath";
                        VString dpath; VString "err"; VErr err].

Definition initFailedRecord (dpath : string) (err : Error) : Event :=
  EvRootLog ErrorValue [VString "Failed to initialize file handler"; VString "dpath";
                        VString dpath; VString "err"; VErr err].

(** The states the package can be in: the state of [init] and what the
    operations above make of it. A logger a caller holds is an object
    of the heap. *)
Inductive reachable (ext : Externals) : State → Prop :=
| reach_init : reachable ext (init ext)
| reach_New c s :
    reachable ext s → reachable ext (New c s).2
| reach_ConcreteLogger_New p c s :
    reachable ext s → p < length (heap s) →
    reachable ext (ConcreteLogger_New p c s).2
| reach_Close s :
    reachable ext s → reachable ext (Close ext s).2
| reach_Reload s :
    reachable ext s → reachable ext (Reload ext s).2
| reach_ReadLoggingConfig modes logsPath cfg s :
    reachable ext s → reachable ext (ReadLoggingConfig ext modes logsPath cfg s).2.

(** ** A sample environment *)

Module Sample.

(** ASCII stand-ins for the string functions of the Go library. *)
Definition lower (c : ascii) : ascii :=
  let n := nat_of_ascii c in
  if bool_decide (65 ≤ n ≤ 90) then ascii_of_nat (n + 32) else c.

Fixpoint map_chars (f : ascii → ascii) (s : string) : string :=
  match s with
  | EmptyString => EmptyString
  | String c s' => String (f c) (map_chars f s')
  end.

Fixpoint trim_left (s : string) : string :=
  match s with
  | String c s' => if Ascii.is_space c then trim_left s' else s
  | EmptyString => EmptyString
  end.

Definition trim (s : string) : string :=
  String.rev (trim_left (String.rev (trim_left s))).

(** The directory part of a slash-separated path. *)
Fixpoint after_slash (s : string) : string :=
  match s with
  | String c s' => if decide (c = "/"%char) then s' else after_slash s'
  | EmptyString => EmptyString
  end.

Definition dir (path : string) : string := String.rev (after_slash (String.rev path)).

Definition comma_to_space (c : ascii) : ascii :=
  if decide (c = ","%char) then " "%char else c.

(** An environment in which creating a directory fails and every
    other action succeeds. *)
Definition ext : Externals :=
  {| ToLower := map_chars lower;
     TrimSpace := trim;
     SplitString := λ s, String.words (map_chars comma_to_space s);
     Join := λ a b, a +:+ "/" +:+ b;
     Dir := dir;
     IsTerminal := false;
     outcome := λ _ e, match e with
                       | EvMkdirAll _ => Some (ErrText "permission denied")
                       | _ => None
                       end |}.

(** A configuration file with a console and a file section. *)
Definition cfg : File :=
  <["log" := <["level" := "Info"]> ∅]>
  (<["log.console" := <["level" := "warn"]> ∅]>
  (<["log.file" := <["filters" := "db:debug"]> ∅]> ∅)).

Definition console : LogWithFilters :=
  {| val := Sink (HConsole LogfmtLogger); filters := ∅; maxLevel := AllowInfo |}.

Definition file : LogWithFilters :=
  {| val := Sink (HFile "logs/grafana.log" LogfmtLogger);
     filters := <["db" := AllowDebug]> ∅;
     maxLevel := AllowWarn |}.

End Sample.

(** ** Further operations and notions *)

(** [with(ctxLogger, withFunc, ctx)]; [WithPrefix] and [WithSuffix] are
    its instances at [gokitlog.WithPrefix] and [gokitlog.WithSuffix]. *)
Definition with_ (p : nat) (withFunc : Logger → list Value → Logger)
    (c : list Value) : M nat :=
  match c with
  | [] => ret p
  | _ :: _ =>
      modify (λ s, set_heap
        (alter (λ cl, {| ctx := ctx cl; logger := withFunc (logger cl) c |})
               p (heap s)) s) ;;
      ret p
  end.

(** What the loop of [initialize] over [names] makes of the object at
    address [i]. *)
Definition rebuilt (byName : gmap string nat) (loggers : list LogWithFilters)
    (names : list string) (i : nat) (o : option ConcreteLogger)
  : option ConcreteLogger :=
  foldl (λ o name,
           if decide (byName !! name = Some i)
           then swap_delegate (Composite (map (initialize_filter name) loggers)) <$> o
           else o) o names.

(** Two heap cells that hold objects with the same context, or both
    nothing. *)
Definition same_ctx (o o' : option ConcreteLogger) : Prop :=
  ctx <$> o = ctx <$> o'.

(** The root logger as [init] makes it and as every operation keeps
    it: no bound context, and registered under no name. *)
Definition root_plain (s : State) : Prop :=
  ctx (deref s (lm_ConcreteLogger (root s))) = []
  ∧ ∀ name, loggersByName (root s) !! name ≠ Some (lm_ConcreteLogger (root s)).

(** A filter string as [getFilters] reads it: the name and the level
    name, when the string has a colon. *)
Definition filterEntry (filterStr : string) : option (string * string) :=
  match Split_colon filterStr with
  | part0 :: part1 :: _ => Some (part0, part1)
  | _ => None
  end.

(** The option a level name stands for. *)
Definition resolveLevel (levelName : string) : LevelOption :=
  default AllowError (logLevels !! levelName).

(** The records written for the level names the table does not know. *)
Definition unknownLevelRecords (levelNames : list string) : list Event :=
  map (λ n, EvRootLog ErrorValue
              [VString "Unknown log level"; VString "level"; VString n])
      (filter (λ n, logLevels !! n = None) levelNames).

(** File handlers, the ones that can be reloaded. *)
Definition isFile (h : Handler) : bool :=
  match h with HFile _ _ => true | _ => false end.

(** The handlers [ReadLoggingConfig] registers for closing. *)
Definition closable (h : Handler) : bool :=
  match h with HFile _ _ | HSyslog _ => true | _ => false end.

(** From [s] to [s'] handlers were registered and actions performed,
    and nothing else happened: the registry is the same, [added] went
    to [loggersToClose] and its file handlers to [loggersToReload]. *)
Definition registers (s s' : State) : Prop :=
  ∃ added evs,
    s' = {| heap := heap s; root := root s;
            loggersToClose := loggersToClose s ++ added;
            loggersToReload := loggersToReload s ++ filter (λ h, isFile h = true) added;
            trace := trace s ++ evs |}
    ∧ Forall (λ h, closable h = true) added.

(** The handler [ReadLoggingConfig] builds for a mode the [switch]
    handles. *)
Definition handlerOf (ext : Externals) (logsPath : string) (cfg : File)
    (mode : string) : Handler :=
  let sec := Section_ cfg ("log." +:+ mode) in
  let format := getLogFormat ext (MustString sec "format" "") in
  if decide (mode = "console") then HConsole format
  else if decide (mode = "file") then
    HFile (MustString sec "file_name" (Join ext logsPath "grafana.log")) format
  else HSyslog format.

(** ** More sample environments *)

Module Sample2.

(** An environment in which every action succeeds. *)
Definition ext_ok : Externals :=
  {| ToLower := ToLower Sample.ext;
     TrimSpace := TrimSpace Sample.ext;
     SplitString := SplitString Sample.ext;
     Join := Join Sample.ext;
     Dir := Dir Sample.ext;
     IsTerminal := false;
     outcome := λ _ _, None |}.

(** An environment in which closing a handler fails. *)
Definition ext_close_fails : Externals :=
  {| ToLower := ToLower Sample.ext;
     TrimSpace := TrimSpace Sample.ext;
     SplitString := SplitString Sample.ext;
     Join := Join Sample.ext;
     Dir := Dir Sample.ext;
     IsTerminal := false;
     outcome := λ _ e, match e with
                       | EvClose _ => Some (ErrText "file already closed")
                       | _ => None
                       end |}.

(** A configuration file with a section for each handled mode and one
    for a mode the code has no handler for. *)
Definition cfg : File :=
  <["log" := <["filters" := "db:debug,rendering"]> ∅]>
  (<["log.console" := <["format" := "json"]> ∅]>
  (<["log.file" := <["level" := "Error"]> ∅]>
  (<["log.syslog" := ∅]>
  (<["log.journal" := ∅]> ∅)))).

(** A state with a syslog handler waiting to be closed. *)
Definition with_syslog : State :=
  set_loggersToClose [HSyslog LogfmtLogger] (init ext_close_fails).

End Sample2.

(** Every object of the heap is the root logger or registered under a
    name. *)
Definition all_registered (s : State) : Prop :=
  ∀ p, p < length (heap s) →
       p = lm_ConcreteLogger (root s) ∨ ∃ name, loggersByName (root s) !! name = Some p.

(** A registered logger carries its own name as its first context
    pair. *)
Definition named_ctx (s : State) : Prop :=
  ∀ name p, loggersByName (root s) !! name = Some p →
            ∃ rest, ctx (deref s p) = VString "logger" :: VString name :: rest.

(** The two together. *)
Definition registry_shape (s : State) : Prop := all_registered s ∧ named_ctx s.

(** * Properties *)

(** ** The level table *)

Lemma logLevels_unknown (levelName : string) :
  levelName ∉ knownLevelNames → logLevels !! levelName = None.
Proof.
  unfold knownLevelNames, logLevels. intros Hn.
  repeat (rewrite lookup_insert_ne;
          [| intros <-; apply Hn; repeat constructor]).
  apply lookup_empty.
Qed.

Lemma logLevels_known (levelName : string) :
  levelName ∈ knownLevelNames → is_Some (logLevels !! levelName).
Proof.
  unfold knownLevelNames. intros Hin.
  repeat (apply elem_of_cons in Hin as [-> | Hin]; [by vm_compute; eexists |]).
  by apply elem_of_nil in Hin.
Qed.

(** C9: a level name outside the table resolves to the error option,
    the most restrictive one of the table, and exactly one record,
    "Unknown log level" with the name, is written through the root
    logger at error level; nothing else of the state changes. *)
Theorem getLogLevelFromString_unknown (levelName : string) (s : State) :
  levelName ∉ knownLevelNames →
  getLogLevelFromString levelName s =
    (AllowError,
     set_trace (trace s ++ [EvRootLog ErrorValue
                  [VString "Unknown log level"; VString "level"; VString levelName]]) s)
  ∧ ∀ name o, logLevels !! name = Some o → ∀ lvl, allow lvl AllowError = true → allow lvl o = true.
Proof.
  intros Hn. split.
  - unfold getLogLevelFromString. by rewrite (logLevels_unknown _ Hn).
  - intros name o Ho lvl. unfold logLevels in Ho.
    repeat (apply lookup_insert_Some in Ho as [[_ <-] | [_ Ho]];
            [by destruct lvl |]).
    by rewrite lookup_empty in Ho.
Qed.

Lemma getLogLevelFromString_unknown_witness :
  getLogLevelFromString "verbose" (newManager (Sink (HStderr LogfmtLogger))) =
    (AllowError,
     set_trace [EvRootLog ErrorValue
                  [VString "Unknown log level"; VString "level"; VString "verbose"]]
               (newManager (Sink (HStderr LogfmtLogger)))).
Proof.
  refine (proj1 (getLogLevelFromString_unknown "verbose" _ _)).
  unfold knownLevelNames. intros Hin.
  repeat (apply elem_of_cons in Hin as [Hin | Hin]; [discriminate Hin |]).
  by apply elem_of_nil in Hin.
Defined.

(** C10: in the table "trace" has the option of "debug" and "critical"
    the option of "error"; resolving either name of a pair is the same
    computation, and a filter built from either admits the same records
    in front of every sink. *)
Theorem logLevels_aliases :
  logLevels !! "trace" = logLevels !! "debug"
  ∧ logLevels !! "critical" = logLevels !! "error"
  ∧ getLogLevelFromString "trace" = getLogLevelFromString "debug"
  ∧ getLogLevelFromString "critical" = getLogLevelFromString "error"
  ∧ ∀ (sink : Logger) (r : LogRecord) (s : State),
      Log (NewFilter sink (getLogLevelFromString "critical" s).1) r =
      Log (NewFilter sink (getLogLevelFromString "error" s).1) r
      ∧ Log (NewFilter sink (getLogLevelFromString "trace" s).1) r =
        Log (NewFilter sink (getLogLevelFromString "debug" s).1) r.
Proof.
  assert (Ht : logLevels !! "trace" = Some AllowDebug) by (by vm_compute).
  assert (Hd : logLevels !! "debug" = Some AllowDebug) by (by vm_compute).
  assert (Hc : logLevels !! "critical" = Some AllowError) by (by vm_compute).
  assert (He : logLevels !! "error" = Some AllowError) by (by vm_compute).
  unfold getLogLevelFromString. rewrite Ht, Hd, Hc, He. done.
Qed.

(** ** Close and Reload *)

Lemma Close_loop_spec (ext : Externals) (hs : list Handler) (err : option Error)
    (s : State) :
  Close_loop ext hs err s =
    (match err with
     | Some _ => err
     | None => head (omap id (outcomes ext EvClose (trace s) hs))
     end,
     set_trace (trace s ++ map EvClose hs) s).
Proof.
  revert err s. induction hs as [| h hs IH]; intros err s.
  - cbn. rewrite app_nil_r. destruct s, err; reflexivity.
  - cbn [Close_loop]. unfold bind, perform. rewrite IH. cbn.
    rewrite <- app_assoc. cbn.
    destruct (outcome ext (trace s) (EvClose h)) as [e |], err as [e' |];
      reflexivity.
Qed.

Lemma Reload_loop_spec (ext : Externals) (hs : list Handler) (s : State) :
  Reload_loop ext hs s =
    match list_find is_Some (outcomes ext EvReload (trace s) hs) with
    | Some (i, e) => (e, set_trace (trace s ++ map EvReload (take (S i) hs)) s)
    | None => (None, set_trace (trace s ++ map EvReload hs) s)
    end.
Proof.
  revert s. induction hs as [| h hs IH]; intros s.
  - cbn. rewrite app_nil_r. by destruct s.
  - cbn [Reload_loop outcomes list_find]. unfold bind, perform.
    destruct (outcome ext (trace s) (EvReload h)) as [e |] eqn:He.
    + rewrite decide_True by eauto. reflexivity.
    + rewrite decide_False by (intros [? ?]; discriminate).
      rewrite IH. cbn.
      destruct (list_find _ _) as [[i e] |]; cbn;
        by rewrite <- app_assoc.
Qed.

(** C7: [Close] calls close on every handler of [loggersToClose], in
    order and also after a failed close, returns the first error met
    (nil when there is none) and leaves the list empty; a second call
    right after closes nothing and returns nil. *)
Theorem Close_all_then_idempotent (ext : Externals) (s : State) :
  let hs := loggersToClose s in
  let s' := (Close ext s).2 in
  (Close ext s).1 = head (omap id (outcomes ext EvClose (trace s) hs))
  ∧ trace s' = trace s ++ map EvClose hs
  ∧ loggersToClose s' = []
  ∧ (heap s', root s', loggersToReload s') = (heap s, root s, loggersToReload s)
  ∧ Close ext s' = (None, s').
Proof.
  unfold Close, bind, gets, modify, ret. cbn.
  rewrite Close_loop_spec. cbn. done.
Qed.

(** C8: [Reload] calls reload on the handlers of [loggersToReload] in
    order; at the first handler whose reload gives an error it returns
    that error with the handlers after it not attempted, and it returns
    nil exactly when no reload gives an error, all handlers attempted. *)
Theorem Reload_fail_fast (ext : Externals) (s : State) :
  let hs := loggersToReload s in
  match list_find is_Some (outcomes ext EvReload (trace s) hs) with
  | Some (i, e) =>
      is_Some e
      ∧ Reload ext s = (e, set_trace (trace s ++ map EvReload (take (S i) hs)) s)
  | None =>
      Forall (λ o, o = None) (outcomes ext EvReload (trace s) hs)
      ∧ Reload ext s = (None, set_trace (trace s ++ map EvReload hs) s)
  end.
Proof.
  cbn. unfold Reload, bind, gets. rewrite Reload_loop_spec.
  destruct (list_find _ _) as [[i e] |] eqn:Hf.
  - split; [| done]. by apply list_find_Some in Hf as (_ & ? & _).
  - split; [| done]. apply Forall_forall. intros o Ho.
    eapply list_find_None, Forall_forall in Hf; [| exact Ho].
    destruct o; [exfalso; eauto | done].
Qed.

(** ** The registry: invariant *)

Lemma initialize_names_heap (loggers : list LogWithFilters) (names : list string)
    (s : State) :
  initialize_names loggers names s =
    (tt, set_heap (foldl (rebuild (loggersByName (root s)) loggers) (heap s) names) s).
Proof.
  revert s. induction names as [| name names IH]; intros s.
  - by destruct s.
  - cbn [initialize_names foldl]. unfold bind, gets. unfold rebuild at 2.
    destruct (loggersByName (root s) !! name) as [p |]; cbn.
    + rewrite IH. by destruct s.
    + rewrite IH. by destruct s.
Qed.

Lemma rebuild_length byName loggers names (h : list ConcreteLogger) :
  length (foldl (rebuild byName loggers) h names) = length h.
Proof.
  revert h. induction names as [| name names IH]; intros h; [done |].
  cbn. rewrite IH. unfold rebuild.
  destruct (byName !! name); [apply length_alter | done].
Qed.

Lemma rebuild_ctx byName loggers names (h : list ConcreteLogger) (p : nat) :
  ctx <$> foldl (rebuild byName loggers) h names !! p = ctx <$> h !! p.
Proof.
  revert h. induction names as [| name names IH]; intros h; [done |].
  cbn. rewrite IH. unfold rebuild.
  destruct (byName !! name) as [q |]; [| done].
  destruct (decide (q = p)) as [-> | Hne].
  - rewrite list_lookup_alter_eq. by destruct (h !! p).
  - by rewrite list_lookup_alter_ne.
Qed.

Lemma rebuild_untouched byName loggers names (h : list ConcreteLogger) (p : nat) :
  (∀ n, n ∈ names → byName !! n ≠ Some p) →
  foldl (rebuild byName loggers) h names !! p = h !! p.
Proof.
  revert h. induction names as [| name names IH]; intros h Hn; [done |].
  cbn. rewrite IH by (intros n Hin; apply Hn; by right).
  unfold rebuild. destruct (byName !! name) as [q |] eqn:Hq; [| done].
  rewrite list_lookup_alter_ne; [done |].
  intros ->. by apply (Hn name); [left |].
Qed.

Lemma rebuild_delegate byName loggers names (h : list ConcreteLogger)
    (name : string) (p : nat) (cl : ConcreteLogger) :
  (∀ n1 n2 q, byName !! n1 = Some q → byName !! n2 = Some q → n1 = n2) →
  name ∈ names → byName !! name = Some p → h !! p = Some cl →
  foldl (rebuild byName loggers) h names !! p =
    Some (swap_delegate (Composite (map (initialize_filter name) loggers)) cl).
Proof.
  intros Hinj. revert h cl.
  induction names as [| n names IH]; intros h cl Hin Hp Hcl.
  { by apply elem_of_nil in Hin. }
  cbn. destruct (decide (name ∈ names)) as [Hlater | Hlast].
  - unfold rebuild at 2. destruct (byName !! n) as [q |] eqn:Hq.
    + destruct (decide (q = p)) as [-> | Hne].
      * erewrite IH; [| done | done | by rewrite list_lookup_alter_eq, Hcl].
        reflexivity.
      * apply IH; [done | done | by rewrite list_lookup_alter_ne].
    + by apply IH.
  - apply elem_of_cons in Hin as [<- | Hin]; [| done].
    rewrite rebuild_untouched.
    + unfold rebuild. rewrite Hp. by rewrite list_lookup_alter_eq, Hcl.
    + intros n' Hn' Hq. apply Hlast. by rewrite (Hinj name n' p).
Qed.

(** The state after [initialize], in closed form. *)
Lemma initialize_unfold (loggers : list LogWithFilters) (s : State) :
  initialize loggers s =
    (tt,
     set_heap
       (foldl (rebuild (loggersByName (root s)) loggers)
          (alter (swap_delegate
                    (Composite (map (λ l, NewFilter (val l) (maxLevel l)) loggers)))
                 (lm_ConcreteLogger (root s)) (heap s))
          (merge_sort String.le (map_to_list (loggersByName (root s))).*1))
       (set_root {| lm_ConcreteLogger := lm_ConcreteLogger (root s);
                    loggersByName := loggersByName (root s);
                    logFilters := loggers |} s)).
Proof.
  unfold initialize, bind, gets, modify, SetLogger. cbn.
  rewrite initialize_names_heap. by destruct s.
Qed.

Lemma sorted_names_elem (byName : gmap string nat) (name : string) (p : nat) :
  byName !! name = Some p →
  name ∈ merge_sort String.le (map_to_list byName).*1.
Proof.
  intros Hp. rewrite merge_sort_Permutation.
  apply list_elem_of_fmap. exists (name, p). split; [done |].
  by apply elem_of_map_to_list.
Qed.

Lemma initialize_root (loggers : list LogWithFilters) (s : State) :
  let s' := (initialize loggers s).2 in
  lm_ConcreteLogger (root s') = lm_ConcreteLogger (root s)
  ∧ loggersByName (root s') = loggersByName (root s)
  ∧ logFilters (root s') = loggers
  ∧ length (heap s') = length (heap s)
  ∧ (loggersToClose s', loggersToReload s', trace s') =
    (loggersToClose s, loggersToReload s, trace s).
Proof.
  rewrite initialize_unfold. cbn.
  by rewrite rebuild_length, length_alter.
Qed.

Lemma initialize_wf (loggers : list LogWithFilters) (s : State) :
  wf s → wf (initialize loggers s).2.
Proof.
  intros [Hr Hn Hi].
  destruct (initialize_root loggers s) as (Hp & Hm & _ & Hl & _).
  split; rewrite ?Hp, ?Hm, ?Hl; done.
Qed.

Lemma deref_ctx_eq (h h' : list ConcreteLogger) (p : nat) :
  ctx <$> h' !! p = ctx <$> h !! p → ctx (h' !!! p) = ctx (h !!! p).
Proof.
  rewrite !list_lookup_total_alt.
  destruct (h' !! p), (h !! p); cbn; congruence.
Qed.

Lemma initialize_ctx (loggers : list LogWithFilters) (s : State) (p : nat) :
  ctx (deref (initialize loggers s).2 p) = ctx (deref s p).
Proof.
  rewrite initialize_unfold. unfold deref. cbn.
  apply deref_ctx_eq. rewrite rebuild_ctx.
  destruct (decide (lm_ConcreteLogger (root s) = p)) as [-> | Hne].
  - rewrite list_lookup_alter_eq. by destruct (heap s !! p).
  - by rewrite list_lookup_alter_ne.
Qed.

(** After [initialize] the delegate of a registered name is the
    composite of the new sinks, filtered for that name, under the
    object's own context. *)
Lemma initialize_delegate (loggers : list LogWithFilters) (s : State)
    (name : string) (p : nat) :
  wf s → loggersByName (root s) !! name = Some p →
  logger (deref (initialize loggers s).2 p) =
    With (Composite (map (initialize_filter name) loggers)) (ctx (deref s p)).
Proof.
  intros [Hr Hn Hi] Hp.
  destruct (lookup_lt_is_Some_2 (heap s) p (Hn _ _ Hp)) as [cl Hcl].
  rewrite initialize_unfold. unfold deref. cbn.
  set (h0 := alter _ _ (heap s)).
  assert (∃ cl0, h0 !! p = Some cl0 ∧ ctx cl0 = ctx cl) as (cl0 & Hcl0 & Hctx).
  { subst h0. destruct (decide (lm_ConcreteLogger (root s) = p)) as [-> | Hne].
    - rewrite list_lookup_alter_eq, Hcl. cbn. eauto.
    - rewrite list_lookup_alter_ne by done. eauto. }
  erewrite (list_lookup_total_correct _ p);
    [| eapply rebuild_delegate; eauto using sorted_names_elem].
  rewrite (list_lookup_total_correct _ _ _ Hcl). cbn. by rewrite Hctx.
Qed.

(** ** The registry: lookups *)

Lemma New_existing (name : string) (rest : list Value) (s : State) (p : nat) :
  loggersByName (root s) !! name = Some p →
  New (VString name :: rest) s = (p, s).
Proof. intros Hp. unfold New, bind, gets. cbn. by rewrite Hp. Qed.

Lemma New_fresh (name : string) (rest : list Value) (s : State) :
  loggersByName (root s) !! name = None →
  New (VString name :: rest) s =
    (length (heap s),
     {| heap := heap s ++ [newConcreteLogger (New_base s name)
                             (VString "logger" :: VString name :: rest)];
        root := {| lm_ConcreteLogger := lm_ConcreteLogger (root s);
                   loggersByName := <[name := length (heap s)]> (loggersByName (root s));
                   logFilters := logFilters (root s) |};
        loggersToClose := loggersToClose s;
        loggersToReload := loggersToReload s;
        trace := trace s |}).
Proof.
  destruct s as [h [rp byName fs] tc tr t]. cbn. intros Hp.
  unfold New, New_base, bind, gets. cbn. rewrite Hp.
  by destruct fs.
Qed.

Lemma newManager_wf (lg : Logger) : wf (newManager lg).
Proof. split; cbn; [lia | |]; intros *; by rewrite lookup_empty. Qed.

Lemma New_wf (c : list Value) (s : State) : wf s → wf (New c s).2.
Proof.
  intros Hwf. destruct c as [| [name | | |] rest]; try done.
  destruct (loggersByName (root s) !! name) as [p |] eqn:Hp.
  - by rewrite (New_existing _ _ _ _ Hp).
  - rewrite (New_fresh _ _ _ Hp). destruct Hwf as [Hr Hn Hi].
    split; cbn; rewrite ?length_app; cbn.
    + lia.
    + intros n q [[_ <-] | [_ Hq]]%lookup_insert_Some; [lia |].
      apply Hn in Hq. lia.
    + intros n1 n2 q [[<- <-] | [Hne1 H1]]%lookup_insert_Some
                      [[<- Heq] | [Hne2 H2]]%lookup_insert_Some; try done.
      * apply Hn in H2. lia.
      * apply Hn in H1. lia.
      * by eapply Hi.
Qed.

Lemma initialize_all_app (cs1 cs2 : list (list LogWithFilters)) (s : State) :
  (initialize_all (cs1 ++ cs2) s).2 = (initialize_all cs2 (initialize_all cs1 s).2).2.
Proof.
  revert s. induction cs1 as [| c cs1 IH]; intros s; [done |].
  cbn. unfold bind. destruct (initialize c s) as [[] s1]. apply IH.
Qed.

Lemma initialize_all_inv (configs : list (list LogWithFilters)) (s : State) :
  wf s →
  let s' := (initialize_all configs s).2 in
  wf s' ∧ loggersByName (root s') = loggersByName (root s)
  ∧ ∀ p, ctx (deref s' p) = ctx (deref s p).
Proof.
  revert s. induction configs as [| c cs IH]; intros s Hwf; [done |].
  cbn. unfold bind.
  pose proof (initialize_wf c s Hwf) as Hwf1.
  pose proof (initialize_root c s) as (_ & Hm & _).
  pose proof (initialize_ctx c s) as Hc.
  destruct (initialize c s) as [[] s1]. cbn in *.
  destruct (IH s1 Hwf1) as (? & Hm' & Hc').
  split; [done |]. split; [congruence |]. intros p. by rewrite Hc', Hc.
Qed.

Lemma Log_Composite (ls : list Logger) (r : LogRecord) :
  Log (Composite ls) r = concat (map (λ l, Log l r) ls).
Proof. induction ls as [| l ls IH]; [done |]. cbn in *. by rewrite IH. Qed.

Lemma Log_With (l : Logger) (c : list Value) (r : LogRecord) :
  Log (With l c) r =
    Log l {| rec_level := rec_level r; rec_keyvals := c ++ rec_keyvals r |}.
Proof. reflexivity. Qed.

Lemma Log_NewFilter (next : Logger) (o : LevelOption) (r : LogRecord) :
  Log (NewFilter next o) r = if allow (rec_level r) o then Log next r else [].
Proof. reflexivity. Qed.

(** ** Filter precedence *)

Lemma initialize_filter_thresholdFor (name : string) (l : LogWithFilters) :
  initialize_filter name l = NewFilter (val l) (thresholdFor l name).
Proof. unfold initialize_filter, thresholdFor. by destruct (filters l !! name). Qed.

Lemma New_filter_thresholdFor (name : string) (l : LogWithFilters) :
  New_filter name l = NewFilter (val l) (thresholdFor l name).
Proof. unfold New_filter, thresholdFor. by destruct (filters l !! name). Qed.

(** C2: the threshold in front of a sink for a name is the override of
    the sink's descriptor when its map has the name and the descriptor's
    default otherwise, in the filters [initialize] installs for every
    registered name and in those [New] builds for an unseen name. *)
Theorem filter_precedence (name : string) (loggers : list LogWithFilters) (s : State) :
  (∀ l, initialize_filter name l = NewFilter (val l) (thresholdFor l name)
        ∧ New_filter name l = NewFilter (val l) (thresholdFor l name))
  ∧ (∀ p, wf s → loggersByName (root s) !! name = Some p →
       logger (deref (initialize loggers s).2 p) =
         With (Composite (map (λ l, NewFilter (val l) (thresholdFor l name)) loggers))
              (ctx (deref s p)))
  ∧ (∀ rest, loggersByName (root s) !! name = None → logFilters (root s) ≠ [] →
       let '(p, s') := New (VString name :: rest) s in
       deref s' p =
         {| ctx := VString "logger" :: VString name :: rest;
            logger :=
              With (Composite (map (λ l, NewFilter (val l) (thresholdFor l name))
                                   (logFilters (root s))))
                   (VString "logger" :: VString name :: rest) |}).
Proof.
  split; [| split].
  - intros l. split;
      [apply initialize_filter_thresholdFor | apply New_filter_thresholdFor].
  - intros p Hwf Hp. rewrite (initialize_delegate _ _ _ _ Hwf Hp).
    do 2 f_equal. apply map_ext. intros l. apply initialize_filter_thresholdFor.
  - intros rest Hp Hf. rewrite (New_fresh _ _ _ Hp).
    unfold deref. cbn. rewrite list_lookup_total_middle by done.
    unfold New_base. destruct (logFilters (root s)) as [| d ds] eqn:Hd; [done |].
    cbn. do 3 f_equal. rewrite New_filter_thresholdFor. f_equal.
    apply map_ext. intros l. apply New_filter_thresholdFor.
Qed.

(** ** Identity across reconfiguration *)

(** C1: for a name registered before a sequence of one or more
    [initialize] calls, the name map still holds the same object
    afterwards, the object keeps its context, its delegate is the
    composite built from the sink list of the last call, and a write
    through the old reference goes to those sinks, each behind the
    threshold for that name, with no new lookup. *)
Theorem initialize_keeps_identity (s : State) (configs : list (list LogWithFilters))
    (loggers : list LogWithFilters) (name : string) (p : nat) :
  wf s → loggersByName (root s) !! name = Some p →
  let s' := (initialize_all (configs ++ [loggers]) s).2 in
  loggersByName (root s') = loggersByName (root s)
  ∧ loggersByName (root s') !! name = Some p
  ∧ length (heap s') = length (heap s)
  ∧ ctx (deref s' p) = ctx (deref s p)
  ∧ logger (deref s' p) =
      With (Composite (map (initialize_filter name) loggers)) (ctx (deref s p))
  ∧ ∀ r, ConcreteLogger_Log p r s' =
      concat (map (λ l,
                if allow (rec_level r) (thresholdFor l name)
                then Log (val l) {| rec_level := rec_level r;
                                    rec_keyvals := ctx (deref s p) ++ rec_keyvals r |}
                else []) loggers).
Proof.
  intros Hwf Hp s'. subst s'. rewrite initialize_all_app.
  destruct (initialize_all_inv configs s Hwf) as (Hwf1 & Hm1 & Hc1).
  set (s1 := (initialize_all configs s).2) in *.
  assert (Hlen1 : length (heap s1) = length (heap s)).
  { subst s1. clear. revert s. induction configs as [| c cs IH]; intros s; [done |].
    cbn. unfold bind. pose proof (initialize_root c s) as (_ & _ & _ & Hl & _).
    destruct (initialize c s) as [[] s2]. cbn in *. by rewrite IH. }
  cbn. unfold bind.
  pose proof (initialize_root loggers s1) as (_ & Hm & _ & Hl & _).
  pose proof (initialize_ctx loggers s1 p) as Hc.
  assert (Hp1 : loggersByName (root s1) !! name = Some p) by (by rewrite Hm1).
  pose proof (initialize_delegate loggers s1 name p Hwf1 Hp1) as Hd.
  destruct (initialize loggers s1) as [[] s2]. cbn in *.
  rewrite Hc1 in Hc, Hd.
  repeat split; try congruence.
  intros r. unfold ConcreteLogger_Log. rewrite Hd, Log_With, Log_Composite, map_map.
  f_equal. apply map_ext. intros l.
  by rewrite initialize_filter_thresholdFor, Log_NewFilter.
Qed.

(** ** Name-scoped identity *)


(** ** Deriving a logger *)

(** The pairs handed on are the caller's pairs without those whose key
    is "logger". *)
Lemma withoutLogger_pairs (c : list Value) :
  pairs (withoutLogger c) = filter (λ kv, kv.1 ≠ VString "logger") (pairs c).
Proof.
  induction c as [c IH] using (induction_ltof1 _ (@length Value)).
  unfold ltof in IH. destruct c as [| k [| v c']]; [done | done |].
  cbn [withoutLogger pairs]. rewrite filter_cons. cbn [fst].
  destruct (decide (k = VString "logger")) as [-> | Hk].
  - rewrite decide_False by (by intros ?). apply IH. cbn. lia.
  - rewrite decide_True by done. cbn [pairs]. f_equal. apply IH. cbn. lia.
Qed.

Lemma withoutLogger_no_logger (c : list Value) (v : Value) :
  (VString "logger", v) ∉ pairs (withoutLogger c).
Proof.
  rewrite withoutLogger_pairs. intros [Hk _]%list_elem_of_filter. by apply Hk.
Qed.

(** [ConcreteLogger.New] in closed form: the caller's context is padded
    in place, and the registry is asked for the caller's pairs without
    the "logger" ones followed by the extra context, whether or not
    there is extra context. *)
Lemma ConcreteLogger_New_unfold (p : nat) (c : list Value) (s : State) :
  p < length (heap s) →
  ConcreteLogger_New p c s =
    New (withoutLogger (padded (ctx (deref s p))) ++ c)
        (set_heap (alter (λ cl, {| ctx := padded (ctx cl); logger := logger cl |})
                         p (heap s)) s).
Proof.
  intros Hp. destruct (lookup_lt_is_Some_2 _ _ Hp) as [cl Hcl].
  assert (Hd : deref s p = cl) by (by apply list_lookup_total_correct).
  unfold ConcreteLogger_New, bind, gets, modify, ret.
  assert (Hdrop : ∀ s0, (if decide (length c = 0)
                         then λ s1, let '(_, s') := New [] s1 in (tt, s')
                         else λ s1, (tt, s1)) s0 = (tt, s0)).
  { intros s0. by destruct (decide (length c = 0)). }
  rewrite Hdrop, Hd. unfold padded.
  destruct (decide (length (ctx cl) `mod` 2 = 1)) as [Hodd | Heven].
  - unfold deref. cbn.
    rewrite (list_lookup_total_correct _ p
               {| ctx := ctx cl ++ [VNil]; logger := logger cl |})
      by (by rewrite list_lookup_alter_eq, Hcl).
    cbn. do 2 f_equal. apply list_alter_ext; [| done].
    intros cl' Hcl'. rewrite Hcl in Hcl'. injection Hcl' as <-.
    by rewrite decide_True.
  - rewrite Hd. f_equal.
    replace (alter _ p (heap s)) with (heap s); [by destruct s |].
    symmetry. apply list_eq. intros i.
    destruct (decide (p = i)) as [<- | Hne].
    + rewrite list_lookup_alter_eq, Hcl. cbn. rewrite decide_False by done.
      by destruct cl.
    + by rewrite list_lookup_alter_ne.
Qed.

Lemma registry_db_wf : wf registry_db.
Proof. apply New_wf, newManager_wf. Qed.

(** Padding a context of even length changes nothing. *)
Lemma pad_even_noop (s : State) (p : nat) :
  length (ctx (deref s p)) `mod` 2 ≠ 1 →
  set_heap (alter (λ cl, {| ctx := padded (ctx cl); logger := logger cl |}) p (heap s)) s
  = s.
Proof.
  intros Heven.
  replace (alter _ p (heap s)) with (heap s); [by destruct s |].
  symmetry. apply list_eq. intros i.
  destruct (decide (p = i)) as [<- | Hne]; [| by rewrite list_lookup_alter_ne].
  rewrite list_lookup_alter_eq. unfold deref in Heven.
  rewrite list_lookup_total_alt in Heven.
  destruct (heap s !! p) as [cl |]; [| done]. cbn in *.
  unfold padded. rewrite decide_False by done. by destruct cl.
Qed.

(** C3, as the code has it: without extra context, on a caller whose
    bound context has no pair besides "logger" pairs, [ConcreteLogger.New]
    returns the root logger (the caller only when the caller is the
    root) and at most pads the caller's context; with extra context the
    registry is asked for the caller's pairs without the "logger" ones
    followed by the extra context, so the bound "logger" pair never
    reaches a child's context. *)
Theorem ConcreteLogger_New_derive (s : State) (p : nat) (c : list Value) :
  p < length (heap s) →
  let bound := padded (ctx (deref s p)) in
  let s_pad :=
    set_heap (alter (λ cl, {| ctx := padded (ctx cl); logger := logger cl |})
                    p (heap s)) s in
  (withoutLogger bound = [] →
   ConcreteLogger_New p [] s = (lm_ConcreteLogger (root s), s_pad))
  ∧ (length (ctx (deref s p)) `mod` 2 ≠ 1 → s_pad = s)
  ∧ (c ≠ [] → ConcreteLogger_New p c s = New (withoutLogger bound ++ c) s_pad)
  ∧ pairs (withoutLogger bound) = filter (λ kv, kv.1 ≠ VString "logger") (pairs bound)
  ∧ ∀ v, (VString "logger", v) ∉ pairs (withoutLogger bound).
Proof.
  intros Hp bound s_pad. repeat split.
  - intros Hnil. rewrite (ConcreteLogger_New_unfold _ _ _ Hp).
    fold bound. by rewrite Hnil.
  - apply pad_even_noop.
  - intros _. apply (ConcreteLogger_New_unfold _ _ _ Hp).
  - apply withoutLogger_pairs.
  - apply withoutLogger_no_logger.
Qed.

(** C3, as stated, fails: the logger named "db" is object 1, and a call
    of [ConcreteLogger.New] on it without arguments does not return it. *)
Lemma ConcreteLogger_New_no_context_not_identity :
  wf registry_db
  ∧ loggersByName (root registry_db) !! "db" = Some 1
  ∧ ctx (deref registry_db 1) = [VString "logger"; VString "db"]
  ∧ (ConcreteLogger_New 1 [] registry_db).1 ≠ 1.
Proof.
  split; [apply registry_db_wf |]. split; [by vm_compute |].
  split; [by vm_compute |]. by vm_compute.
Qed.

(** ** Applying a configuration *)

Lemma logs_only_ret {A} (a : A) : logs_only (ret a).
Proof. intros s. by destruct s. Qed.

Lemma logs_only_bind {A B} (m : M A) (k : A → M B) :
  logs_only m → (∀ a, logs_only (k a)) → logs_only (bind m k).
Proof.
  intros Hm Hk s. unfold bind. specialize (Hm s).
  destruct (m s) as [a s1]. cbn in Hm. rewrite (Hk a s1), Hm. by destruct s.
Qed.

Lemma logs_only_rootError (keyvals : list Value) : logs_only (rootError keyvals).
Proof. intros s. by destruct s. Qed.

Lemma logs_only_perform (ext : Externals) (e : Event) : logs_only (perform ext e).
Proof. intros s. by destruct s. Qed.

Lemma logs_only_getLogLevelFromString (levelName : string) :
  logs_only (getLogLevelFromString levelName).
Proof.
  unfold getLogLevelFromString. destruct (logLevels !! levelName).
  - apply logs_only_ret.
  - apply logs_only_bind; [apply logs_only_rootError | intros; apply logs_only_ret].
Qed.

Lemma logs_only_getFilters_loop (arr : list string) (acc : gmap string LevelOption) :
  logs_only (getFilters_loop arr acc).
Proof.
  revert acc. induction arr as [| filterStr rest IH]; intros acc.
  - apply logs_only_ret.
  - cbn. destruct (Split_colon filterStr) as [| part0 [| part1 ?]]; try apply IH.
    apply logs_only_bind; [apply logs_only_getLogLevelFromString | intros; apply IH].
Qed.

Lemma logs_only_getLogLevelFromConfig (ext : Externals) (key defaultName : string)
    (cfg : File) :
  logs_only (getLogLevelFromConfig ext key defaultName cfg).
Proof.
  apply logs_only_bind;
    [apply logs_only_getLogLevelFromString | intros; apply logs_only_ret].
Qed.

Lemma logs_only_keeps_registry {A} (m : M A) : logs_only m → keeps_registry m.
Proof. intros Hm s. by rewrite (Hm s). Qed.

Lemma keeps_registry_ret {A} (a : A) : keeps_registry (ret a).
Proof. by intros s. Qed.

Lemma keeps_registry_bind {A B} (m : M A) (k : A → M B) :
  keeps_registry m → (∀ a, keeps_registry (k a)) → keeps_registry (bind m k).
Proof.
  intros Hm Hk s. unfold bind. specialize (Hm s).
  destruct (m s) as [a s1]. cbn in Hm. destruct (Hk a s1) as [-> ->]. done.
Qed.

Lemma keeps_registry_modify (f : State → State) :
  (∀ s, heap (f s) = heap s ∧ root (f s) = root s) → keeps_registry (modify f).
Proof. intros Hf s. apply Hf. Qed.

Create HintDb registry.

#[local] Hint Resolve keeps_registry_ret keeps_registry_bind keeps_registry_modify
  logs_only_keeps_registry logs_only_rootError logs_only_perform
  logs_only_getLogLevelFromString logs_only_getFilters_loop
  logs_only_getLogLevelFromConfig : registry.

Lemma keeps_registry_buildHandler (ext : Externals) (mode logsPath : string)
    (sec : gmap string string) (format : Format) :
  keeps_registry (buildHandler ext mode logsPath sec format).
Proof.
  unfold buildHandler. repeat case_decide; auto with registry.
  apply keeps_registry_bind; [auto with registry |]. intros [err |].
  - auto with registry.
  - apply keeps_registry_bind; [auto with registry |]. intros [err |].
    + auto with registry.
    + repeat (apply keeps_registry_bind; [by apply keeps_registry_modify | intros ?]).
      auto with registry.
Qed.

Lemma keeps_registry_configureMode (ext : Externals) (dl : string)
    (df : gmap string LevelOption) (logsPath : string) (cfg : File) (mode : string) :
  keeps_registry (configureMode ext dl df logsPath cfg mode).
Proof.
  unfold configureMode. destruct (GetSection _ _) as [err | sec].
  - auto with registry.
  - apply keeps_registry_bind; [auto with registry |]. intros [? ?].
    apply keeps_registry_bind; [unfold getFilters; auto with registry |]. intros ?.
    apply keeps_registry_bind; [apply keeps_registry_buildHandler |].
    intros [[v |] |]; auto with registry.
Qed.

Lemma keeps_registry_configureModes (ext : Externals) (dl : string)
    (df : gmap string LevelOption) (logsPath : string) (cfg : File)
    (modes : list string) (acc : list LogWithFilters) :
  keeps_registry (configureModes ext dl df logsPath cfg modes acc).
Proof.
  revert acc. induction modes as [| mode modes IH]; intros acc; cbn.
  - auto with registry.
  - apply keeps_registry_bind; [apply keeps_registry_configureMode |].
    intros [h | | err | m]; auto with registry.
Qed.

Lemma keeps_registry_Close (ext : Externals) : keeps_registry (Close ext).
Proof.
  intros s. unfold Close, bind, gets, modify, ret.
  by rewrite Close_loop_spec.
Qed.

Lemma configureMode_unknown (ext : Externals) (dl : string)
    (df : gmap string LevelOption) (logsPath : string) (cfg : File)
    (mode : string) (s : State) :
  cfg !! ("log." +:+ TrimSpace ext mode) = None →
  configureMode ext dl df logsPath cfg mode s =
    (Failed (unknownModeError (TrimSpace ext mode)),
     set_trace (trace s ++ [unknownModeRecord (TrimSpace ext mode)]) s).
Proof. intros Hs. unfold configureMode, GetSection. by rewrite Hs. Qed.



Lemma buildHandler_handled (ext : Externals) (mode logsPath : string)
    (sec : gmap string string) (format : Format) (s : State) :
  mode ∈ handledModes →
  (buildHandler ext mode logsPath sec format s).1 ≠ Some None.
Proof.
  intros Hin. unfold buildHandler, bind, perform, rootError, modify, ret.
  repeat case_decide; try done.
  - destruct (outcome ext (trace s) _); [done |]. cbn.
    by destruct (outcome ext _ _).
  - unfold handledModes in Hin.
    repeat (apply elem_of_cons in Hin as [-> | Hin]; [done |]).
    by apply elem_of_nil in Hin.
Qed.

Lemma configureModes_handled_prefix (ext : Externals) (dl : string)
    (df : gmap string LevelOption) (logsPath : string) (cfg : File)
    (pre rest : list string) :
  Forall (λ m, TrimSpace ext m ∈ handledModes
               ∧ is_Some (cfg !! ("log." +:+ TrimSpace ext m))) pre →
  ∀ acc s, ∃ acc' s',
    configureModes ext dl df logsPath cfg (pre ++ rest) acc s =
    configureModes ext dl df logsPath cfg rest acc' s'.
Proof.
  induction 1 as [| m pre [Hk [sec Hsec]] _ IH]; intros acc s; [by eauto |].
  cbn [app configureModes]. unfold bind at 1.
  destruct (configureMode ext dl df logsPath cfg m s) as [r s1] eqn:Hr.
  unfold configureMode, GetSection in Hr. rewrite Hsec in Hr.
  unfold bind in Hr.
  destruct (getLogLevelFromConfig _ _ _ _ s) as [[? lvl] s2].
  destruct (getFilters _ s2) as [mf s3].
  pose proof (buildHandler_handled ext (TrimSpace ext m) logsPath sec
                (getLogFormat ext (MustString sec "format" "")) s3 Hk) as Hb.
  destruct (buildHandler _ _ _ _ _ s3) as [[[v |] |] s4]; cbn in Hr, Hb;
    try done; injection Hr as <- <-; apply IH.
Qed.


(** The [case "file"] of the [switch], in closed form. *)
Lemma buildHandler_file (ext : Externals) (logsPath : string)
    (sec : gmap string string) (format : Format) (s : State) :
  let fileName := MustString sec "file_name" (Join ext logsPath "grafana.log") in
  let dpath := Dir ext fileName in
  buildHandler ext "file" logsPath sec format s =
    match outcome ext (trace s) (EvMkdirAll dpath) with
    | Some err =>
        (None, set_trace (trace s ++ [EvMkdirAll dpath; mkdirFailedRecord dpath err]) s)
    | None =>
        match outcome ext (trace s ++ [EvMkdirAll dpath]) (EvInit fileName) with
        | Some err =>
            (None, set_trace (trace s ++ [EvMkdirAll dpath; EvInit fileName;
                                          initFailedRecord dpath err]) s)
        | None =>
            (Some (Some (Sink (HFile fileName format))),
             {| heap := heap s; root := root s;
                loggersToClose := loggersToClose s ++ [HFile fileName format];
                loggersToReload := loggersToReload s ++ [HFile fileName format];
                trace := trace s ++ [EvMkdirAll dpath; EvInit fileName] |})
        end
    end.
Proof.
  intros fileName dpath. unfold buildHandler.
  rewrite decide_False by done. rewrite decide_True by done.
  fold fileName. fold dpath.
  unfold bind, perform, rootError, modify, ret, mkdirFailedRecord, initFailedRecord.
  destruct (outcome ext (trace s) (EvMkdirAll dpath)) as [e |]; cbn.
  - by rewrite <- app_assoc.
  - destruct (outcome ext (trace s ++ [EvMkdirAll dpath]) (EvInit fileName)) as [e |];
      cbn; by rewrite <- !app_assoc.
Qed.


(** ** The invariant holds of every reachable state *)

Lemma wf_same_registry (s s' : State) :
  heap s' = heap s → root s' = root s → wf s → wf s'.
Proof. intros Hh Hr [? ? ?]. split; rewrite ?Hh, ?Hr; done. Qed.

Lemma ConcreteLogger_New_wf (p : nat) (c : list Value) (s : State) :
  p < length (heap s) → wf s → wf (ConcreteLogger_New p c s).2.
Proof.
  intros Hp [Hr Hn Hi]. rewrite (ConcreteLogger_New_unfold _ _ _ Hp).
  apply New_wf. split; cbn; rewrite ?length_alter; done.
Qed.

Lemma keeps_registry_Reload (ext : Externals) : keeps_registry (Reload ext).
Proof.
  intros s. unfold Reload, bind, gets. rewrite Reload_loop_spec.
  by destruct (list_find _ _) as [[i e] |].
Qed.

Lemma ReadLoggingConfig_wf (ext : Externals) (modes : list string)
    (logsPath : string) (cfg : File) (s : State) :
  wf s → wf (ReadLoggingConfig ext modes logsPath cfg s).2.
Proof.
  intros Hwf. unfold ReadLoggingConfig, bind.
  pose proof (keeps_registry_Close ext s) as [Hh0 Hr0].
  destruct (Close ext s) as [[e |] s1]; cbn [fst snd] in *.
  { by apply (wf_same_registry s). }
  pose proof (logs_only_keeps_registry _
                (logs_only_getLogLevelFromConfig ext "log" "info" cfg) s1) as [Hh1 Hr1].
  destruct (getLogLevelFromConfig ext "log" "info" cfg s1) as [[dl ?] s2].
  pose proof (logs_only_keeps_registry _
                (logs_only_getFilters_loop
                   (SplitString ext (Key_String (Section_ cfg "log") "filters")) ∅)
                s2) as [Hh2 Hr2].
  fold (getFilters (SplitString ext (Key_String (Section_ cfg "log") "filters"))) in *.
  destruct (getFilters _ s2) as [df s3]. cbn [fst snd] in *.
  pose proof (keeps_registry_configureModes ext dl df logsPath cfg modes [] s3)
    as [Hh3 Hr3].
  assert (Hwf4 : wf (configureModes ext dl df logsPath cfg modes [] s3).2).
  { apply (wf_same_registry s); [congruence | congruence | done]. }
  destruct (configureModes _ _ _ _ _ _ _ s3) as [[cl | err | m] s4];
    cbn [fst snd] in *; try done.
  case_decide; [| done].
  pose proof (initialize_wf cl s4 Hwf4) as Hwf5.
  by destruct (initialize cl s4) as [[] s5].
Qed.

Lemma reachable_wf (ext : Externals) (s : State) : reachable ext s → wf s.
Proof.
  induction 1 as [| c s _ IH | p c s _ IH Hp | s _ IH | s _ IH
                  | modes logsPath cfg s _ IH].
  - apply newManager_wf.
  - by apply New_wf.
  - by apply ConcreteLogger_New_wf.
  - by apply (wf_same_registry s); [apply keeps_registry_Close
                                    | apply keeps_registry_Close |].
  - by apply (wf_same_registry s); [apply keeps_registry_Reload
                                    | apply keeps_registry_Reload |].
  - by apply ReadLoggingConfig_wf.
Qed.

(** ** Sample runs *)

Lemma ConcreteLogger_New_derive_witness :
  ConcreteLogger_New 1 [] registry_db = (0, registry_db)
  ∧ ConcreteLogger_New 1 [VString "query"; VString "id"] registry_db =
    New [VString "query"; VString "id"] registry_db.
Proof.
  assert (Hp : 1 < length (heap registry_db)) by (vm_compute; lia).
  destruct (ConcreteLogger_New_derive registry_db 1 [VString "query"; VString "id"] Hp)
    as (Hroot & Hpad & Hextra & _).
  rewrite Hpad in Hroot, Hextra by (by vm_compute).
  split; [exact (Hroot eq_refl) | exact (Hextra ltac:(done))].
Defined.

Lemma initialize_keeps_identity_witness :
  let s' := (initialize_all ([[Sample.console]] ++ [[Sample.console; Sample.file]])
                            registry_db).2 in
  loggersByName (root s') !! "db" = Some 1
  ∧ logger (deref s' 1) =
      With (Composite [NewFilter (Sink (HConsole LogfmtLogger)) AllowInfo;
                       NewFilter (Sink (HFile "logs/grafana.log" LogfmtLogger)) AllowDebug])
           [VString "logger"; VString "db"].
Proof.
  assert (Hdb : loggersByName (root registry_db) !! "db" = Some 1) by (by vm_compute).
  destruct (initialize_keeps_identity registry_db [[Sample.console]]
              [Sample.console; Sample.file] "db" 1 registry_db_wf Hdb)
    as (_ & Hsame & _ & _ & Hdelegate & _).
  split; [exact Hsame | exact Hdelegate].
Defined.

Lemma filter_precedence_witness :
  logger (deref (initialize [Sample.console; Sample.file] registry_db).2 1) =
    With (Composite [NewFilter (Sink (HConsole LogfmtLogger)) AllowInfo;
                     NewFilter (Sink (HFile "logs/grafana.log" LogfmtLogger)) AllowDebug])
         [VString "logger"; VString "db"].
Proof.
  assert (Hdb : loggersByName (root registry_db) !! "db" = Some 1) by (by vm_compute).
  exact (proj1 (proj2 (filter_precedence "db" [Sample.console; Sample.file] registry_db))
               1 registry_db_wf Hdb).
Defined.



(** The whole call on the sample: the file sink cannot create its
    directory, the call still returns nil and the console sink is the
    one installed. *)
Example ReadLoggingConfig_skips_failed_file :
  let res := ReadLoggingConfig Sample.ext ["file"; "console"] "logs" Sample.cfg
                               (init Sample.ext) in
  res.1 = Return None
  ∧ map val (logFilters (root res.2)) = [Sink (HConsole LogfmtLogger)]
  ∧ map maxLevel (logFilters (root res.2)) = [AllowWarn]
  ∧ loggersToClose res.2 = [] ∧ loggersToReload res.2 = []
  ∧ trace res.2 = [EvMkdirAll "logs";
                   mkdirFailedRecord "logs" (ErrText "permission denied")].
Proof. by vm_compute. Qed.


(** ** Reconfiguration forgets what came before *)

Lemma rebuild_lookup byName loggers names (h : list ConcreteLogger) (i : nat) :
  foldl (rebuild byName loggers) h names !! i =
    rebuilt byName loggers names i (h !! i).
Proof.
  unfold rebuilt. revert h. induction names as [| name names IH]; intros h; [done |].
  cbn. rewrite IH. f_equal. unfold rebuild.
  destruct (byName !! name) as [q |]; [| by rewrite decide_False].
  rewrite list_lookup_alter. destruct (decide (q = i)) as [-> | Hne].
  - by rewrite decide_True.
  - rewrite decide_False; [done | congruence].
Qed.

Lemma swap_delegate_same_ctx (lg : Logger) (o o' : option ConcreteLogger) :
  same_ctx o o' → swap_delegate lg <$> o = swap_delegate lg <$> o'.
Proof.
  unfold same_ctx, swap_delegate.
  destruct o as [[c l] |], o' as [[c' l'] |]; cbn; congruence.
Qed.

Lemma same_ctx_swap_delegate (lg : Logger) (o : option ConcreteLogger) :
  same_ctx (swap_delegate lg <$> o) o.
Proof. unfold same_ctx. by destruct o. Qed.

Lemma rebuilt_keeps_ctx byName loggers names i (o : option ConcreteLogger) :
  same_ctx (rebuilt byName loggers names i o) o.
Proof.
  unfold rebuilt. revert o. induction names as [| name names IH]; intros o; [done |].
  cbn. unfold same_ctx in *. rewrite IH. case_decide; [| done].
  apply same_ctx_swap_delegate.
Qed.

Lemma rebuilt_miss byName loggers names i (o : option ConcreteLogger) :
  ¬ Exists (λ n, byName !! n = Some i) names →
  rebuilt byName loggers names i o = o.
Proof.
  unfold rebuilt. revert o. induction names as [| name names IH]; intros o Hno; [done |].
  cbn. rewrite decide_False by (intros ?; apply Hno; by left).
  apply IH. intros ?; apply Hno; by right.
Qed.

Lemma rebuilt_hit byName loggers names i (o o' : option ConcreteLogger) :
  Exists (λ n, byName !! n = Some i) names → same_ctx o o' →
  rebuilt byName loggers names i o = rebuilt byName loggers names i o'.
Proof.
  unfold rebuilt. intros Hex. revert o o'.
  induction names as [| name names IH]; intros o o' Hctx.
  { by apply Exists_nil in Hex. }
  cbn. destruct (decide (byName !! name = Some i)) as [Hhit | Hmiss].
  - by rewrite (swap_delegate_same_ctx _ o o').
  - apply IH; [| done]. by apply Exists_cons in Hex as [? | ?].
Qed.

(** The object at an address after [initialize], from the object
    before. *)
Lemma initialize_lookup (loggers : list LogWithFilters) (s : State) (i : nat) :
  heap (initialize loggers s).2 !! i =
    rebuilt (loggersByName (root s)) loggers
      (merge_sort String.le (map_to_list (loggersByName (root s))).*1) i
      (if decide (lm_ConcreteLogger (root s) = i)
       then swap_delegate
              (Composite (map (λ l, NewFilter (val l) (maxLevel l)) loggers))
              <$> heap s !! i
       else heap s !! i).
Proof.
  rewrite initialize_unfold. cbn. rewrite rebuild_lookup, list_lookup_alter.
  by case_decide; subst.
Qed.

(** [initialize] after a computation that changed no context, no
    registration and no object outside the registry gives the state it
    gives without that computation. *)
Lemma initialize_absorbs (loggers : list LogWithFilters) (s s1 : State) :
  lm_ConcreteLogger (root s1) = lm_ConcreteLogger (root s) →
  loggersByName (root s1) = loggersByName (root s) →
  (loggersToClose s1, loggersToReload s1, trace s1) =
    (loggersToClose s, loggersToReload s, trace s) →
  length (heap s1) = length (heap s) →
  (∀ i, same_ctx (heap s1 !! i) (heap s !! i)) →
  (∀ i, lm_ConcreteLogger (root s) ≠ i →
        (∀ name, loggersByName (root s) !! name ≠ Some i) →
        heap s1 !! i = heap s !! i) →
  (initialize loggers s1).2 = (initialize loggers s).2.
Proof.
  intros Hr Hm Hrest Hlen Hctx Hout.
  assert (Hheap : heap (initialize loggers s1).2 = heap (initialize loggers s).2).
  { apply list_eq. intros i. rewrite !initialize_lookup, Hr, Hm.
    set (names := merge_sort String.le (map_to_list (loggersByName (root s))).*1).
    destruct (decide (lm_ConcreteLogger (root s) = i)) as [Hri | Hnr].
    - by rewrite (swap_delegate_same_ctx _ _ _ (Hctx i)).
    - destruct (decide (Exists (λ n, loggersByName (root s) !! n = Some i) names))
        as [Hhit | Hmiss].
      + by apply rebuilt_hit.
      + rewrite !rebuilt_miss by done. apply Hout; [done |].
        intros name Hname. apply Hmiss, Exists_exists. exists name.
        split; [by eapply sorted_names_elem | done]. }
  revert Hheap. rewrite !initialize_unfold. cbn. intros ->.
  injection Hrest as Hc Hl Ht. unfold set_heap, set_root. cbn.
  by rewrite Hc, Hl, Ht, Hr, Hm.
Qed.

(** X1: a sequence of [initialize] calls leaves the state that its last
    call alone gives; in particular calling [initialize] twice with the
    same sinks is calling it once. *)
Theorem initialize_last_wins (configs : list (list LogWithFilters))
    (loggers : list LogWithFilters) (s : State) :
  (initialize_all (configs ++ [loggers]) s).2 = (initialize loggers s).2
  ∧ (initialize loggers (initialize loggers s).2).2 = (initialize loggers s).2.
Proof.
  assert (Hstep : ∀ c0 c s0, (initialize c (initialize c0 s0).2).2 = (initialize c s0).2).
  { intros c0 c s0.
    pose proof (initialize_root c0 s0) as (Hr & Hm & _ & Hl & Hrest).
    apply initialize_absorbs; try done.
    - intros i. rewrite initialize_lookup. case_decide.
      + unfold same_ctx. rewrite rebuilt_keeps_ctx. apply same_ctx_swap_delegate.
      + apply rebuilt_keeps_ctx.
    - intros i Hnr Hnn. rewrite initialize_lookup, decide_False by done.
      apply rebuilt_miss. intros (name & _ & Hname)%Exists_exists.
      by apply (Hnn name). }
  split; [| apply Hstep].
  revert s. induction configs as [| c0 cs IH]; intros s.
  - change (([] : list (list LogWithFilters)) ++ [loggers]) with [loggers].
    cbn [initialize_all]. unfold bind, ret.
    by destruct (initialize loggers s) as [[] ?].
  - change ((c0 :: cs) ++ [loggers]) with (c0 :: (cs ++ [loggers])).
    cbn [initialize_all]. unfold bind at 1.
    destruct (initialize c0 s) as [[] s1] eqn:Hc0. rewrite IH.
    replace s1 with (initialize c0 s).2 by (by rewrite Hc0). apply Hstep.
Qed.

(** X2: context added to an object of the registry by [with] (that is,
    by [WithPrefix] or [WithSuffix]) does not survive a reconfiguration:
    [initialize] gives the state it gives without the call. The call
    itself returns the pointer it was given and changes no context. *)
Theorem with_dropped_by_initialize (p : nat)
    (withFunc : Logger → list Value → Logger) (c : list Value)
    (loggers : list LogWithFilters) (s : State) :
  (p = lm_ConcreteLogger (root s) ∨ ∃ name, loggersByName (root s) !! name = Some p) →
  (with_ p withFunc c s).1 = p
  ∧ (∀ q, ctx (deref (with_ p withFunc c s).2 q) = ctx (deref s q))
  ∧ (initialize loggers (with_ p withFunc c s).2).2 = (initialize loggers s).2.
Proof.
  intros Hreg. destruct c as [| v c]; [done |].
  change (with_ p withFunc (v :: c) s) with
    (p, set_heap
          (alter (λ cl, {| ctx := ctx cl; logger := withFunc (logger cl) (v :: c) |})
                 p (heap s)) s).
  cbn [fst snd].
  assert (Hctx : ∀ i, same_ctx
            (alter (λ cl, {| ctx := ctx cl; logger := withFunc (logger cl) (v :: c) |})
                   p (heap s) !! i) (heap s !! i)).
  { intros i. unfold same_ctx. rewrite list_lookup_alter. case_decide; [| done].
    subst. by destruct (heap s !! i). }
  split; [done |]. split.
  - intros q. unfold deref. cbn. by apply deref_ctx_eq, Hctx.
  - apply initialize_absorbs; cbn; try done.
    + apply length_alter.
    + intros i Hnr Hnn. apply list_lookup_alter_ne. intros ->.
      destruct Hreg as [-> | [name Hname]]; [done | by apply (Hnn name)].
Qed.

(** ** What a lookup leaves alone *)

(** X3: [New] never touches what is there: the objects of the heap
    stay as they are (at most one is added at the end), every
    registration stays, the sink list, the lifecycle lists and the trace
    are unchanged, and on a well-formed registry the pointer returned is
    an object of the heap. *)
Theorem New_never_disturbs (c : list Value) (s : State) :
  let p := (New c s).1 in
  let s' := (New c s).2 in
  heap s `prefix_of` heap s'
  ∧ length (heap s') ≤ S (length (heap s))
  ∧ loggersByName (root s) ⊆ loggersByName (root s')
  ∧ lm_ConcreteLogger (root s') = lm_ConcreteLogger (root s)
  ∧ logFilters (root s') = logFilters (root s)
  ∧ (loggersToClose s', loggersToReload s', trace s') =
    (loggersToClose s, loggersToReload s, trace s)
  ∧ (wf s → p < length (heap s')).
Proof.
  assert (Hsame : ∀ q, q = lm_ConcreteLogger (root s) ∨
                       (∃ name, loggersByName (root s) !! name = Some q) →
            heap s `prefix_of` heap s
            ∧ length (heap s) ≤ S (length (heap s))
            ∧ loggersByName (root s) ⊆ loggersByName (root s)
            ∧ lm_ConcreteLogger (root s) = lm_ConcreteLogger (root s)
            ∧ logFilters (root s) = logFilters (root s)
            ∧ (loggersToClose s, loggersToReload s, trace s) =
              (loggersToClose s, loggersToReload s, trace s)
            ∧ (wf s → q < length (heap s))).
  { intros q Hq. repeat split; try done; [lia |].
    intros [Hr Hn _]. destruct Hq as [-> | [name Hname]]; [done | by eapply Hn]. }
  destruct c as [| [name | | |] rest]; try (apply Hsame; by left).
  destruct (loggersByName (root s) !! name) as [q |] eqn:Hq.
  - rewrite (New_existing _ _ _ _ Hq). apply Hsame. right. by exists name.
  - rewrite (New_fresh _ _ _ Hq). cbn. rewrite length_app. cbn.
    repeat split; try done.
    + by apply prefix_app_r.
    + lia.
    + by apply insert_subseteq.
    + intros _. lia.
Qed.

(** ** The root logger *)

Lemma root_plain_same_registry (s s' : State) :
  heap s' = heap s → root s' = root s → root_plain s → root_plain s'.
Proof. unfold root_plain, deref. by intros -> ->. Qed.

Lemma newManager_root_plain (lg : Logger) : root_plain (newManager lg).
Proof. split; [done |]. intros name. cbn. by rewrite lookup_empty. Qed.

Lemma New_root_plain (c : list Value) (s : State) :
  wf s → root_plain s → root_plain (New c s).2.
Proof.
  intros [Hr Hn _] [Hctx Hun]. destruct c as [| [name | | |] rest]; try done.
  destruct (loggersByName (root s) !! name) as [q |] eqn:Hq.
  - by rewrite (New_existing _ _ _ _ Hq).
  - rewrite (New_fresh _ _ _ Hq). split; cbn.
    + unfold deref in *. cbn. by rewrite lookup_total_app_l.
    + intros n [[_ Heq] | [_ Hn']]%lookup_insert_Some; [lia | by apply (Hun n)].
Qed.

Lemma initialize_root_plain (loggers : list LogWithFilters) (s : State) :
  root_plain s → root_plain (initialize loggers s).2.
Proof.
  intros [Hctx Hun].
  pose proof (initialize_root loggers s) as (Hr & Hm & _).
  split; rewrite Hr; [by rewrite initialize_ctx | by rewrite Hm].
Qed.

Lemma ConcreteLogger_New_root_plain (p : nat) (c : list Value) (s : State) :
  p < length (heap s) → wf s → root_plain s →
  root_plain (ConcreteLogger_New p c s).2.
Proof.
  intros Hp [Hr Hn Hi] [Hctx Hun]. rewrite (ConcreteLogger_New_unfold _ _ _ Hp).
  apply New_root_plain.
  - split; cbn; rewrite ?length_alter; done.
  - split; [| done]. cbn. unfold deref in *. cbn.
    rewrite list_lookup_total_alt in *. rewrite list_lookup_alter.
    case_decide; [| done]. subst.
    destruct (heap s !! lm_ConcreteLogger (root s)) as [cl |]; [| done].
    cbn in *. by rewrite Hctx.
Qed.

Lemma ReadLoggingConfig_root_plain (ext : Externals) (modes : list string)
    (logsPath : string) (cfg : File) (s : State) :
  root_plain s → root_plain (ReadLoggingConfig ext modes logsPath cfg s).2.
Proof.
  intros Hrp. unfold ReadLoggingConfig, bind.
  pose proof (keeps_registry_Close ext s) as [Hh0 Hr0].
  destruct (Close ext s) as [[e |] s1]; cbn [fst snd] in *.
  { by apply (root_plain_same_registry s). }
  pose proof (logs_only_keeps_registry _
                (logs_only_getLogLevelFromConfig ext "log" "info" cfg) s1) as [Hh1 Hr1].
  destruct (getLogLevelFromConfig ext "log" "info" cfg s1) as [[dl ?] s2].
  pose proof (logs_only_keeps_registry _
                (logs_only_getFilters_loop
                   (SplitString ext (Key_String (Section_ cfg "log") "filters")) ∅)
                s2) as [Hh2 Hr2].
  fold (getFilters (SplitString ext (Key_String (Section_ cfg "log") "filters"))) in *.
  destruct (getFilters _ s2) as [df s3]. cbn [fst snd] in *.
  pose proof (keeps_registry_configureModes ext dl df logsPath cfg modes [] s3)
    as [Hh3 Hr3].
  assert (Hrp4 : root_plain (configureModes ext dl df logsPath cfg modes [] s3).2).
  { apply (root_plain_same_registry s); [congruence | congruence | done]. }
  destruct (configureModes _ _ _ _ _ _ _ s3) as [[cl | err | m] s4];
    cbn [fst snd] in *; try done.
  case_decide; [| done].
  pose proof (initialize_root_plain cl s4 Hrp4) as Hrp5.
  by destruct (initialize cl s4) as [[] s5].
Qed.

Lemma reachable_root_plain (ext : Externals) (s : State) :
  reachable ext s → root_plain s.
Proof.
  induction 1 as [| c s Hs IH | p c s Hs IH Hp | s _ IH | s _ IH
                  | modes logsPath cfg s _ IH].
  - apply newManager_root_plain.
  - apply New_root_plain; [by eapply reachable_wf | done].
  - apply ConcreteLogger_New_root_plain; [done | by eapply reachable_wf | done].
  - by apply (root_plain_same_registry s); [apply keeps_registry_Close
                                            | apply keeps_registry_Close |].
  - by apply (root_plain_same_registry s); [apply keeps_registry_Reload
                                            | apply keeps_registry_Reload |].
  - by apply ReadLoggingConfig_root_plain.
Qed.

(** X4: in every state the package reaches from [init], the root
    logger has no bound context and is registered under no name, and
    after [initialize] its delegate is the composite of the new sinks,
    each behind its own default threshold: per-name overrides never
    apply to the root. *)
Theorem root_after_initialize (ext : Externals) (loggers : list LogWithFilters)
    (s : State) :
  reachable ext s →
  let s' := (initialize loggers s).2 in
  let rootp := lm_ConcreteLogger (root s) in
  root_plain s
  ∧ logger (deref s' rootp) =
      With (Composite (map (λ l, NewFilter (val l) (maxLevel l)) loggers)) []
  ∧ ∀ r, ConcreteLogger_Log rootp r s' =
      concat (map (λ l, if allow (rec_level r) (maxLevel l)
                        then Log (val l) {| rec_level := rec_level r;
                                            rec_keyvals := rec_keyvals r |}
                        else []) loggers).
Proof.
  intros Hreach s' rootp.
  pose proof (reachable_root_plain _ _ Hreach) as Hrp.
  pose proof (reachable_wf _ _ Hreach) as [Hr _ _].
  assert (Hd : logger (deref s' rootp) =
      With (Composite (map (λ l, NewFilter (val l) (maxLevel l)) loggers)) []).
  { destruct Hrp as [Hctx Hun]. subst s' rootp. unfold deref in *.
    destruct (lookup_lt_is_Some_2 _ _ Hr) as [cl Hcl].
    rewrite (list_lookup_total_correct _ _ _ Hcl) in Hctx.
    erewrite list_lookup_total_correct;
      [| rewrite initialize_lookup, decide_True, rebuilt_miss, Hcl by
           (try done; intros (name & _ & Hname)%Exists_exists; by apply (Hun name));
         reflexivity].
    cbn. by rewrite Hctx. }
  split; [done |]. split; [done |].
  intros r. unfold ConcreteLogger_Log. rewrite Hd, Log_With, Log_Composite, map_map.
  f_equal.
Qed.

(** ** Lookups and reconfiguration commute *)

Lemma rebuilt_None byName loggers names i :
  rebuilt byName loggers names i None = None.
Proof.
  pose proof (rebuilt_keeps_ctx byName loggers names i None) as H.
  unfold same_ctx in H. by destruct (rebuilt _ _ _ _ _).
Qed.

(** With no object shared by two names, the loop leaves at the address
    of a name the delegate built for that name. *)
Lemma rebuilt_named byName loggers names (name : string) (i : nat)
    (o : option ConcreteLogger) :
  (∀ n1 n2 q, byName !! n1 = Some q → byName !! n2 = Some q → n1 = n2) →
  name ∈ names → byName !! name = Some i →
  rebuilt byName loggers names i o =
    swap_delegate (Composite (map (initialize_filter name) loggers)) <$> o.
Proof.
  intros Hinj Hin Hname. unfold rebuilt.
  assert (Hfix : ∀ (ns : list string) (o0 : option ConcreteLogger),
    foldl (λ o name0, if decide (byName !! name0 = Some i)
                      then swap_delegate
                             (Composite (map (initialize_filter name0) loggers)) <$> o
                      else o)
          (swap_delegate (Composite (map (initialize_filter name) loggers)) <$> o0) ns
    = swap_delegate (Composite (map (initialize_filter name) loggers)) <$> o0).
  { induction ns as [| n ns IH]; intros o0; [done |]. cbn.
    destruct (decide (byName !! n = Some i)) as [Hn | Hn]; [| apply IH].
    rewrite (Hinj n name i Hn Hname).
    replace (swap_delegate _ <$> (swap_delegate _ <$> o0))
      with (swap_delegate (Composite (map (initialize_filter name) loggers)) <$> o0)
      by (by destruct o0).
    apply IH. }
  revert o. induction names as [| n names IH]; intros o.
  { by apply elem_of_nil in Hin. }
  cbn. destruct (decide (byName !! n = Some i)) as [Hn | Hn].
  - rewrite (Hinj n name i Hn Hname). apply Hfix.
  - apply IH. apply elem_of_cons in Hin as [-> | Hin]; [done | done].
Qed.

(** X5: asking for a logger before a reconfiguration or after it comes
    to the same: with a non-empty sink list, [New] after [initialize]
    returns the pointer and leaves the state that [initialize] after
    [New] gives. *)
Theorem New_initialize_commute (c : list Value) (loggers : list LogWithFilters)
    (s : State) :
  wf s → loggers ≠ [] →
  (New c (initialize loggers s).2).1 = (New c s).1
  ∧ (New c (initialize loggers s).2).2 = (initialize loggers (New c s).2).2.
Proof.
  intros Hwf Hne.
  pose proof (initialize_root loggers s) as (Hr & Hm & Hf & Hl & Hrest).
  assert (Htriv : ∀ q, New c s = (q, s) →
                       New c (initialize loggers s).2 = (q, (initialize loggers s).2) →
    (New c (initialize loggers s).2).1 = (New c s).1
    ∧ (New c (initialize loggers s).2).2 = (initialize loggers (New c s).2).2).
  { by intros q -> ->. }
  assert (Hroot0 : ∀ s0, New [] s0 = (lm_ConcreteLogger (root s0), s0)) by done.
  assert (Hroot1 : ∀ v rest s0, (∀ name, v ≠ VString name) →
            New (v :: rest) s0 = (lm_ConcreteLogger (root s0), s0)).
  { intros v rest s0 Hv. destruct v; try done. by destruct (Hv s1). }
  destruct c as [| v rest].
  { apply (Htriv (lm_ConcreteLogger (root s))); [done | by rewrite Hroot0, Hr]. }
  assert (Hv : (∃ name, v = VString name) ∨ ∀ name, v ≠ VString name).
  { destruct v; [left; eauto | right; done ..]. }
  destruct Hv as [[name ->] | Hv]; last first.
  { apply (Htriv (lm_ConcreteLogger (root s)));
      [by apply Hroot1 | by rewrite Hroot1, Hr]. }
  destruct (loggersByName (root s) !! name) as [q |] eqn:Hq.
  { apply (Htriv q); apply New_existing; [done | by rewrite Hm]. }
  assert (Hq1 : loggersByName (root (initialize loggers s).2) !! name = None)
    by (by rewrite Hm).
  rewrite (New_fresh _ _ _ Hq1), (New_fresh _ _ _ Hq). cbn [fst snd].
  split; [done |].
  set (c' := VString "logger" :: VString name :: rest).
  set (s2 := {| heap := heap s ++ [newConcreteLogger (New_base s name) c'];
                root := {| lm_ConcreteLogger := lm_ConcreteLogger (root s);
                           loggersByName :=
                             <[name := length (heap s)]> (loggersByName (root s));
                           logFilters := logFilters (root s) |};
                loggersToClose := loggersToClose s;
                loggersToReload := loggersToReload s;
                trace := trace s |}).
  assert (Hwf2 : wf s2).
  { pose proof (New_wf (VString name :: rest) s Hwf) as H.
    by rewrite (New_fresh _ _ _ Hq) in H. }
  destruct Hwf as [Hroot Hnames Hinj]. destruct Hwf2 as [_ _ Hinj2].
  assert (Hobj : newConcreteLogger (New_base (initialize loggers s).2 name) c' =
                 swap_delegate (Composite (map (initialize_filter name) loggers))
                               (newConcreteLogger (New_base s name) c')).
  { unfold New_base. rewrite Hf. destruct loggers as [| l ls]; [done |].
    reflexivity. }
  assert (Hheap : heap (initialize loggers s).2 ++
                    [newConcreteLogger (New_base (initialize loggers s).2 name) c']
                  = heap (initialize loggers s2).2).
  { apply list_eq. intros i. rewrite (initialize_lookup loggers s2). cbn [root s2 heap
      lm_ConcreteLogger loggersByName].
    set (byName2 := <[name := length (heap s)]> (loggersByName (root s))).
    set (names2 := merge_sort String.le (map_to_list byName2).*1).
    destruct (decide (i < length (heap s))) as [Hlt | Hge].
    - rewrite lookup_app_l by lia. rewrite (lookup_app_l (heap s)) by done.
      rewrite initialize_lookup.
      set (o := if decide (lm_ConcreteLogger (root s) = i) then _ else _).
      set (names := merge_sort String.le (map_to_list (loggersByName (root s))).*1).
      destruct (decide (Exists (λ n, loggersByName (root s) !! n = Some i) names))
        as [Hhit | Hmiss].
      + apply Exists_exists in Hhit as (n & Hn & Hni).
        assert (Hni2 : byName2 !! n = Some i).
        { subst byName2. rewrite lookup_insert_ne; [done | congruence]. }
        rewrite (rebuilt_named _ _ _ n i o Hinj Hn Hni).
        by rewrite (rebuilt_named _ _ _ n i o Hinj2
                      (sorted_names_elem _ _ _ Hni2) Hni2).
      + rewrite !rebuilt_miss; [done | | done].
        intros (n & _ & Hn2)%Exists_exists. apply Hmiss, Exists_exists. exists n.
        subst byName2. apply lookup_insert_Some in Hn2 as [[_ ?] | [_ Hn2]]; [lia |].
        split; [by eapply sorted_names_elem | done].
    - rewrite decide_False by lia.
      destruct (decide (i = length (heap s))) as [-> | Hgt].
      + rewrite list_lookup_middle by done. rewrite list_lookup_middle by done.
        assert (Hn2 : byName2 !! name = Some (length (heap s)))
          by (subst byName2; by rewrite lookup_insert_eq).
        rewrite Hobj.
        pose proof (sorted_names_elem byName2 name _ Hn2) as Hin2.
        by rewrite (λ o, rebuilt_named byName2 loggers names2 name _ o Hinj2 Hin2 Hn2).
      + rewrite !lookup_ge_None_2 by (rewrite length_app, ?Hl; cbn; lia).
        by rewrite rebuilt_None. }
  rewrite Hheap. injection Hrest as -> -> ->. rewrite Hr, Hm, Hf, Hl.
  rewrite (initialize_unfold loggers s2). reflexivity.
Qed.

(** ** Filters read from the configuration *)

Lemma getLogLevelFromString_resolve (levelName : string) (s : State) :
  getLogLevelFromString levelName s =
    (resolveLevel levelName,
     set_trace (trace s ++ unknownLevelRecords [levelName]) s).
Proof.
  unfold getLogLevelFromString, resolveLevel, unknownLevelRecords.
  rewrite filter_cons, filter_nil.
  destruct (logLevels !! levelName) as [o |] eqn:Ho; cbn.
  - rewrite decide_False by done. cbn. rewrite app_nil_r. by destruct s.
  - by rewrite decide_True.
Qed.

Lemma unknownLevelRecords_app (l1 l2 : list string) :
  unknownLevelRecords (l1 ++ l2) = unknownLevelRecords l1 ++ unknownLevelRecords l2.
Proof. unfold unknownLevelRecords. by rewrite filter_app, map_app. Qed.

Lemma unknownLevelRecords_cons (n : string) (l : list string) :
  unknownLevelRecords (n :: l) = unknownLevelRecords [n] ++ unknownLevelRecords l.
Proof. apply (unknownLevelRecords_app [n] l). Qed.

Lemma getFilters_loop_fold (arr : list string) (acc : gmap string LevelOption)
    (s : State) :
  getFilters_loop arr acc s =
    (foldl (λ m e, <[e.1 := resolveLevel e.2]> m) acc (omap filterEntry arr),
     set_trace (trace s ++ unknownLevelRecords (omap filterEntry arr).*2) s).
Proof.
  revert acc s. induction arr as [| filterStr rest IH]; intros acc s.
  - cbn. rewrite app_nil_r. by destruct s.
  - cbn [getFilters_loop omap list_omap].
    destruct (Split_colon filterStr) as [| part0 [| part1 parts]] eqn:Hsp.
    + replace (filterEntry filterStr) with (@None (string * string))
        by (unfold filterEntry; by rewrite Hsp).
      apply IH.
    + replace (filterEntry filterStr) with (@None (string * string))
        by (unfold filterEntry; by rewrite Hsp).
      apply IH.
    + replace (filterEntry filterStr) with (Some (part0, part1))
        by (unfold filterEntry; by rewrite Hsp).
      unfold bind. rewrite getLogLevelFromString_resolve, IH.
      rewrite fmap_cons. cbn [snd].
      rewrite (unknownLevelRecords_cons part1 (omap filterEntry rest).*2), app_assoc.
      by destruct s.
Qed.

Lemma foldl_insert_list_to_map (l : list (string * LevelOption)) :
  foldl (λ m e, <[e.1 := e.2]> m) (∅ : gmap string LevelOption) l =
    list_to_map (reverse l).
Proof.
  induction l as [| e l IH] using rev_ind; [done |].
  rewrite foldl_app, reverse_app. cbn. by rewrite IH.
Qed.

(** X6: [getFilters] reads the strings in order: a string without a
    colon adds nothing, a string "name:level" sets the name to the
    option of the level name (the error option and one "Unknown log
    level" record when the table does not know it), and a later string
    for a name replaces an earlier one. *)
Theorem getFilters_closed_form (filterStrArray : list string) (s : State) :
  getFilters filterStrArray s =
    (list_to_map
       (reverse (map (λ e, (e.1, resolveLevel e.2)) (omap filterEntry filterStrArray))),
     set_trace (trace s ++ unknownLevelRecords (omap filterEntry filterStrArray).*2) s)
  ∧ (∀ filterStr name levelName,
       filterEntry filterStr = Some (name, levelName) →
       (getFilters (filterStrArray ++ [filterStr]) s).1 !! name =
         Some (resolveLevel levelName))
  ∧ (∀ filterStr,
       filterEntry filterStr = None →
       getFilters (filterStrArray ++ [filterStr]) s = getFilters filterStrArray s).
Proof.
  assert (Hclosed : ∀ arr,
    getFilters arr s =
      (list_to_map (reverse (map (λ e, (e.1, resolveLevel e.2)) (omap filterEntry arr))),
       set_trace (trace s ++ unknownLevelRecords (omap filterEntry arr).*2) s)).
  { intros arr. unfold getFilters. rewrite getFilters_loop_fold. f_equal.
    rewrite <- foldl_insert_list_to_map. by rewrite foldl_fmap. }
  split; [apply Hclosed |]. split.
  - intros filterStr name levelName He. rewrite Hclosed. cbn [fst].
    rewrite omap_app. cbn. rewrite He. cbn.
    rewrite map_app, reverse_app. cbn. apply lookup_insert_eq.
  - intros filterStr He. rewrite !Hclosed, omap_app. cbn. rewrite He. cbn.
    by rewrite !app_nil_r.
Qed.

(** X7: joining the default filters into the mode filters is the union
    in which the mode wins: a name the mode has keeps the mode's level,
    any other name gets the default, if there is one. *)
Theorem joinFilters_union (defaultFilters modeFilters : gmap string LevelOption) :
  joinFilters defaultFilters modeFilters = modeFilters ∪ defaultFilters
  ∧ ∀ name, joinFilters defaultFilters modeFilters !! name =
            match modeFilters !! name with
            | Some lvl => Some lvl
            | None => defaultFilters !! name
            end.
Proof.
  assert (Hlookup : ∀ name, joinFilters defaultFilters modeFilters !! name =
            match modeFilters !! name with
            | Some lvl => Some lvl
            | None => defaultFilters !! name
            end).
  { unfold joinFilters.
    apply (map_fold_weak_ind
             (λ r (m : gmap string LevelOption),
                ∀ name, r !! name = match modeFilters !! name with
                                    | Some lvl => Some lvl
                                    | None => m !! name
                                    end)).
    - intros name. rewrite lookup_empty. by destruct (modeFilters !! name).
    - intros key value m r Hm IH name.
      pose proof (IH key) as Hkey. rewrite Hm in Hkey.
      destruct (decide (key = name)) as [<- | Hne].
      + rewrite lookup_insert_eq.
        destruct (modeFilters !! key) as [lvl |] eqn:Hmode; rewrite Hkey.
        * by rewrite Hkey.
        * by rewrite lookup_insert_eq.
      + rewrite lookup_insert_ne by done.
        destruct (r !! key); [apply IH |].
        rewrite lookup_insert_ne by done. apply IH. }
  split; [| done]. apply map_eq. intros name.
  rewrite Hlookup, lookup_union.
  by destruct (modeFilters !! name), (defaultFilters !! name).
Qed.

(** ** One mode of the configuration, in closed form *)

Lemma getLogLevelFromConfig_resolve (ext : Externals) (key defaultName : string)
    (cfg : File) (s : State) :
  let levelName := ToLower ext (MustString (Section_ cfg key) "level" defaultName) in
  getLogLevelFromConfig ext key defaultName cfg s =
    ((levelName, resolveLevel levelName),
     set_trace (trace s ++ unknownLevelRecords [levelName]) s).
Proof.
  intros levelName. unfold getLogLevelFromConfig, bind, ret. fold levelName.
  by rewrite getLogLevelFromString_resolve.
Qed.

(** The filters of a section, as [getFilters] reads them. *)
Lemma getFilters_resolve (arr : list string) (s : State) :
  getFilters arr s =
    (list_to_map (reverse (map (λ e, (e.1, resolveLevel e.2)) (omap filterEntry arr))),
     set_trace (trace s ++ unknownLevelRecords (omap filterEntry arr).*2) s).
Proof.
  unfold getFilters. rewrite getFilters_loop_fold. f_equal.
  rewrite <- foldl_insert_list_to_map. by rewrite foldl_fmap.
Qed.

Lemma configureMode_found (ext : Externals) (dl : string)
    (df : gmap string LevelOption) (logsPath : string) (cfg : File)
    (mode : string) (sec : gmap string string) (s : State) :
  cfg !! ("log." +:+ TrimSpace ext mode) = Some sec →
  let m := TrimSpace ext mode in
  let levelName := ToLower ext (MustString sec "level" dl) in
  let entries := omap filterEntry (SplitString ext (Key_String sec "filters")) in
  let s3 := set_trace (trace s ++ unknownLevelRecords [levelName]
                               ++ unknownLevelRecords entries.*2) s in
  let built := buildHandler ext m logsPath sec
                 (getLogFormat ext (MustString sec "format" "")) s3 in
  configureMode ext dl df logsPath cfg mode s =
    (match built.1 with
     | None => Skipped
     | Some None => Uninitialized m
     | Some (Some v) =>
         Configured
           {| val := v;
              filters := joinFilters df
                (list_to_map (reverse (map (λ e, (e.1, resolveLevel e.2)) entries)));
              maxLevel := resolveLevel levelName |}
     end, built.2).
Proof.
  intros Hsec m levelName entries s3 built. subst m.
  unfold configureMode, GetSection. rewrite Hsec. unfold bind.
  rewrite getLogLevelFromConfig_resolve. unfold Section_. rewrite Hsec. cbn [default].
  fold levelName. rewrite getFilters_resolve. fold entries. cbn [trace set_trace].
  replace (set_trace _ (set_trace _ s)) with s3
    by (subst s3; destruct s; cbn; by rewrite app_assoc).
  fold built. by destruct built as [[[v |] |] s4].
Qed.

Lemma buildHandler_console (ext : Externals) (logsPath : string)
    (sec : gmap string string) (format : Format) (s : State) :
  buildHandler ext "console" logsPath sec format s =
    (Some (Some (Sink (HConsole format))), s).
Proof. reflexivity. Qed.

Lemma buildHandler_syslog (ext : Externals) (logsPath : string)
    (sec : gmap string string) (format : Format) (s : State) :
  buildHandler ext "syslog" logsPath sec format s =
    (Some (Some (Sink (HSyslog format))),
     set_loggersToClose (loggersToClose s ++ [HSyslog format]) s).
Proof. reflexivity. Qed.

Lemma buildHandler_unhandled (ext : Externals) (mode logsPath : string)
    (sec : gmap string string) (format : Format) (s : State) :
  mode ∉ handledModes →
  buildHandler ext mode logsPath sec format s = (Some None, s).
Proof.
  intros Hm. unfold buildHandler.
  rewrite !decide_False; [done | ..]; intros ->; apply Hm; unfold handledModes;
    by repeat constructor.
Qed.

Lemma registers_refl (s : State) : registers s s.
Proof.
  exists [], []. split; [| done]. cbn. rewrite !app_nil_r. by destruct s.
Qed.

Lemma registers_trans (s1 s2 s3 : State) :
  registers s1 s2 → registers s2 s3 → registers s1 s3.
Proof.
  intros (a1 & e1 & -> & H1) (a2 & e2 & -> & H2).
  exists (a1 ++ a2), (e1 ++ e2). split; [| by apply Forall_app].
  cbn. by rewrite filter_app, !app_assoc.
Qed.

Lemma registers_set_trace (s : State) (evs : list Event) :
  registers s (set_trace (trace s ++ evs) s).
Proof. exists [], evs. split; [| done]. cbn. by rewrite !app_nil_r. Qed.

Lemma buildHandler_registers (ext : Externals) (mode logsPath : string)
    (sec : gmap string string) (format : Format) (s : State) :
  registers s (buildHandler ext mode logsPath sec format s).2.
Proof.
  destruct (decide (mode = "console")) as [-> | Hc].
  { rewrite buildHandler_console. apply registers_refl. }
  destruct (decide (mode = "file")) as [-> | Hf].
  { pose proof (buildHandler_file ext logsPath sec format s) as Hb. cbn zeta in Hb.
    rewrite Hb. destruct (outcome ext (trace s) _) as [e |].
    { apply registers_set_trace. }
    destruct (outcome ext (trace s ++ _) _) as [e |].
    { apply registers_set_trace. }
    exists [HFile (MustString sec "file_name" (Join ext logsPath "grafana.log")) format],
           [EvMkdirAll (Dir ext (MustString sec "file_name"
                                   (Join ext logsPath "grafana.log")));
            EvInit (MustString sec "file_name" (Join ext logsPath "grafana.log"))].
    split; [reflexivity |]. by repeat constructor. }
  destruct (decide (mode = "syslog")) as [-> | Hs].
  { rewrite buildHandler_syslog. exists [HSyslog format], [].
    split; [| by repeat constructor]. cbn. by rewrite !app_nil_r. }
  rewrite buildHandler_unhandled; [apply registers_refl |].
  unfold handledModes. intros Hin.
  repeat (apply elem_of_cons in Hin as [-> | Hin]; [done |]).
  by apply elem_of_nil in Hin.
Qed.

Lemma configureMode_registers (ext : Externals) (dl : string)
    (df : gmap string LevelOption) (logsPath : string) (cfg : File)
    (mode : string) (s : State) :
  registers s (configureMode ext dl df logsPath cfg mode s).2.
Proof.
  destruct (cfg !! ("log." +:+ TrimSpace ext mode)) as [sec |] eqn:Hsec.
  - pose proof (configureMode_found ext dl df logsPath cfg mode sec s Hsec) as Hc.
    cbn zeta in Hc. rewrite Hc. cbn [snd].
    eapply registers_trans; [| apply buildHandler_registers].
    apply registers_set_trace.
  - rewrite (configureMode_unknown _ _ _ _ _ _ _ Hsec). apply registers_set_trace.
Qed.

Lemma configureModes_registers (ext : Externals) (dl : string)
    (df : gmap string LevelOption) (logsPath : string) (cfg : File)
    (modes : list string) (acc : list LogWithFilters) (s : State) :
  registers s (configureModes ext dl df logsPath cfg modes acc s).2.
Proof.
  revert acc s. induction modes as [| mode modes IH]; intros acc s.
  - apply registers_refl.
  - cbn [configureModes]. unfold bind.
    pose proof (configureMode_registers ext dl df logsPath cfg mode s) as Hm.
    destruct (configureMode ext dl df logsPath cfg mode s) as [[h | | err | m] s1];
      cbn [snd] in *; try done; eapply registers_trans; eauto.
Qed.

(** ** The whole of [ReadLoggingConfig] *)

Lemma Close_closed_form (ext : Externals) (s : State) :
  Close ext s =
    (head (omap id (outcomes ext EvClose (trace s) (loggersToClose s))),
     {| heap := heap s; root := root s; loggersToClose := [];
        loggersToReload := loggersToReload s;
        trace := trace s ++ map EvClose (loggersToClose s) |}).
Proof. unfold Close, bind, gets, modify, ret. by rewrite Close_loop_spec. Qed.

(** The call after a [Close] that succeeded. *)
Lemma ReadLoggingConfig_after_Close (ext : Externals) (modes : list string)
    (logsPath : string) (cfg : File) (s s1 : State) :
  Close ext s = (None, s1) →
  let dl := ToLower ext (MustString (Section_ cfg "log") "level" "info") in
  let entries :=
    omap filterEntry (SplitString ext (Key_String (Section_ cfg "log") "filters")) in
  let df := list_to_map (reverse (map (λ e, (e.1, resolveLevel e.2)) entries)) in
  let s3 := set_trace (trace s1 ++ unknownLevelRecords [dl]
                                ++ unknownLevelRecords entries.*2) s1 in
  let loop := configureModes ext dl df logsPath cfg modes [] s3 in
  ReadLoggingConfig ext modes logsPath cfg s =
    match loop.1 with
    | LoopReturn e => (Return (Some e), loop.2)
    | LoopPanic m => (Panic m, loop.2)
    | LoopDone configLoggers =>
        (Return None,
         if decide (0 < length configLoggers)
         then (initialize configLoggers loop.2).2 else loop.2)
    end.
Proof.
  intros HC dl entries df s3 loop. unfold ReadLoggingConfig, bind.
  rewrite HC, getLogLevelFromConfig_resolve. fold dl.
  rewrite getFilters_resolve. fold entries. fold df. cbn [trace set_trace].
  replace (set_trace _ (set_trace _ s1)) with s3
    by (subst s3; destruct s1; cbn; by rewrite app_assoc).
  fold loop. destruct loop as [[cl | e | m] s4]; cbn [fst snd]; try done.
  case_decide; [| done]. by destruct (initialize cl s4) as [[] s5].
Qed.

Lemma ReadLoggingConfig_Close_Some (ext : Externals) (modes : list string)
    (logsPath : string) (cfg : File) (s : State) (e : Error) :
  head (omap id (outcomes ext EvClose (trace s) (loggersToClose s))) = Some e →
  ReadLoggingConfig ext modes logsPath cfg s =
    (Return (Some e),
     {| heap := heap s; root := root s; loggersToClose := [];
        loggersToReload := loggersToReload s;
        trace := trace s ++ map EvClose (loggersToClose s) |}).
Proof.
  intros He. unfold ReadLoggingConfig, bind. by rewrite Close_closed_form, He.
Qed.

(** X8: when closing the handlers of the previous configuration fails,
    [ReadLoggingConfig] returns the first close error at once: every
    handler has been closed and the list emptied, but no section is
    read, nothing is written through the root logger and no
    configuration is applied, whatever modes were requested. *)
Theorem ReadLoggingConfig_Close_error (ext : Externals) (modes : list string)
    (logsPath : string) (cfg : File) (s : State) (e : Error) :
  head (omap id (outcomes ext EvClose (trace s) (loggersToClose s))) = Some e →
  ReadLoggingConfig ext modes logsPath cfg s =
    (Return (Some e),
     {| heap := heap s; root := root s; loggersToClose := [];
        loggersToReload := loggersToReload s;
        trace := trace s ++ map EvClose (loggersToClose s) |})
  ∧ ReadLoggingConfig ext modes logsPath cfg s = ReadLoggingConfig ext [] logsPath cfg s.
Proof.
  intros He. by rewrite !(ReadLoggingConfig_Close_Some _ _ _ _ _ _ He).
Qed.

Lemma ReadLoggingConfig_registers (ext : Externals) (modes : list string)
    (logsPath : string) (cfg : File) (s : State) :
  let res := ReadLoggingConfig ext modes logsPath cfg s in
  ∃ evs,
    loggersToReload res.2 =
      loggersToReload s ++ filter (λ h, isFile h = true) (loggersToClose res.2)
    ∧ Forall (λ h, closable h = true) (loggersToClose res.2)
    ∧ trace res.2 = trace s ++ map EvClose (loggersToClose s) ++ evs.
Proof.
  intros res. subst res.
  destruct (Close ext s) as [[e |] s1] eqn:HC.
  { rewrite Close_closed_form in HC. injection HC as He _.
    rewrite (ReadLoggingConfig_Close_Some _ _ _ _ _ _ He). cbn.
    exists []. by rewrite !app_nil_r. }
  pose proof (ReadLoggingConfig_after_Close ext modes logsPath cfg s s1 HC) as HR.
  cbn zeta in HR. rewrite HR. clear HR.
  rewrite Close_closed_form in HC. injection HC as _ <-.
  set (s1 := {| heap := heap s; root := root s; loggersToClose := [];
                loggersToReload := loggersToReload s;
                trace := trace s ++ map EvClose (loggersToClose s) |}).
  set (dl := ToLower ext _). set (df := list_to_map _). set (s3 := set_trace _ s1).
  assert (Hreg : registers s1 (configureModes ext dl df logsPath cfg modes [] s3).2).
  { eapply registers_trans; [| apply configureModes_registers].
    apply registers_set_trace. }
  destruct Hreg as (added & evs & Hs4 & Hadded).
  assert (Hfinal : ∀ s5,
            (loggersToClose s5, loggersToReload s5, trace s5) =
            (loggersToClose (configureModes ext dl df logsPath cfg modes [] s3).2,
             loggersToReload (configureModes ext dl df logsPath cfg modes [] s3).2,
             trace (configureModes ext dl df logsPath cfg modes [] s3).2) →
            ∃ evs0,
              loggersToReload s5 =
                loggersToReload s ++ filter (λ h, isFile h = true) (loggersToClose s5)
              ∧ Forall (λ h, closable h = true) (loggersToClose s5)
              ∧ trace s5 = trace s ++ map EvClose (loggersToClose s) ++ evs0).
  { intros s5 Heq. injection Heq as -> -> ->. rewrite Hs4. cbn.
    exists evs. by rewrite app_assoc. }
  destruct (configureModes ext dl df logsPath cfg modes [] s3) as [[cl | err | m] s4];
    cbn [fst snd] in *; try (by apply Hfinal).
  case_decide; [| by apply Hfinal].
  apply Hfinal. by pose proof (initialize_root cl s4) as (_ & _ & _ & _ & ->).
Qed.

(** X9: the reload list is never cleared. After [ReadLoggingConfig] the
    close list holds only the file and syslog handlers this call set up,
    while the reload list is the old reload list followed by the file
    handlers of this call: the file handlers of earlier configurations,
    closed by now, stay on it, and [Close] does not remove them. *)
Theorem loggersToReload_accumulates (ext : Externals) (modes : list string)
    (logsPath : string) (cfg : File) (s : State) :
  let res := ReadLoggingConfig ext modes logsPath cfg s in
  loggersToReload res.2 =
    loggersToReload s ++ filter (λ h, isFile h = true) (loggersToClose res.2)
  ∧ Forall (λ h, closable h = true) (loggersToClose res.2)
  ∧ loggersToReload (Close ext res.2).2 = loggersToReload res.2.
Proof.
  intros res.
  destruct (ReadLoggingConfig_registers ext modes logsPath cfg s) as (evs & H1 & H2 & _).
  split; [done |]. split; [done |]. by rewrite Close_closed_form.
Qed.

(** X10: whatever it goes on to do, [ReadLoggingConfig] first closes
    every handler registered for closing, in order, before anything
    else is performed or logged; the trace of the call starts with
    these closes. *)
Theorem ReadLoggingConfig_closes_first (ext : Externals) (modes : list string)
    (logsPath : string) (cfg : File) (s : State) :
  ∃ evs,
    trace (ReadLoggingConfig ext modes logsPath cfg s).2 =
      trace s ++ map EvClose (loggersToClose s) ++ evs.
Proof.
  destruct (ReadLoggingConfig_registers ext modes logsPath cfg s) as (evs & _ & _ & H).
  by exists evs.
Qed.

Lemma outcomes_all_None (ext : Externals) (act : Handler → Event)
    (tr : list Event) (hs : list Handler) :
  (∀ tr0 e, outcome ext tr0 e = None) → omap id (outcomes ext act tr hs) = [].
Proof.
  intros Hok. revert tr. induction hs as [| h hs IH]; intros tr; [done |].
  cbn. rewrite Hok. apply IH.
Qed.

(** X11: a requested mode that has a section but no case in the
    [switch] (anything but console, file and syslog) makes the loop
    panic on reaching it, whatever follows; the whole call panics when
    [Close] succeeded and the modes before it were set up, and the
    registry is left as it was. *)
Theorem ReadLoggingConfig_panics_on_unhandled_mode (ext : Externals)
    (pre : list string) (mode : string) (post : list string) (logsPath : string)
    (cfg : File) (s : State) :
  is_Some (cfg !! ("log." +:+ TrimSpace ext mode)) →
  TrimSpace ext mode ∉ handledModes →
  let res := ReadLoggingConfig ext (pre ++ mode :: post) logsPath cfg s in
  (∀ dl df acc s0,
     (configureModes ext dl df logsPath cfg (mode :: post) acc s0).1 =
       LoopPanic (TrimSpace ext mode))
  ∧ (head (omap id (outcomes ext EvClose (trace s) (loggersToClose s))) = None →
     Forall (λ m, TrimSpace ext m ∈ handledModes
                  ∧ is_Some (cfg !! ("log." +:+ TrimSpace ext m))) pre →
     res.1 = Panic (TrimSpace ext mode)
     ∧ heap res.2 = heap s ∧ root res.2 = root s).
Proof.
  intros [sec Hsec] Hmode res.
  assert (Hloop : ∀ dl df acc s0,
     (configureModes ext dl df logsPath cfg (mode :: post) acc s0).1 =
       LoopPanic (TrimSpace ext mode)).
  { intros dl df acc s0. cbn [configureModes]. unfold bind.
    pose proof (configureMode_found ext dl df logsPath cfg mode sec s0 Hsec) as Hc.
    cbn zeta in Hc. rewrite Hc. by rewrite buildHandler_unhandled. }
  split; [done |]. intros HC Hpre. subst res.
  pose proof (keeps_registry_Close ext s) as [Hh0 Hr0].
  pose proof (Close_closed_form ext s) as HC'. rewrite HC in HC'.
  pose proof (ReadLoggingConfig_after_Close ext (pre ++ mode :: post) logsPath cfg
                s _ HC') as HR.
  cbn zeta in HR. rewrite HR. clear HR.
  set (dl := ToLower ext _). set (df := list_to_map _). set (s3 := set_trace _ _).
  pose proof (keeps_registry_configureModes ext dl df logsPath cfg
                (pre ++ mode :: post) [] s3) as [Hh3 Hr3].
  destruct (configureModes_handled_prefix ext dl df logsPath cfg pre (mode :: post)
              Hpre [] s3) as (acc' & s' & Heq).
  rewrite Heq in *. specialize (Hloop dl df acc' s').
  destruct (configureModes ext dl df logsPath cfg (mode :: post) acc' s')
    as [r s4]. cbn [fst snd] in *. subst r. done.
Qed.



Lemma configureModes_all_built (ext : Externals) (dl : string)
    (df : gmap string LevelOption) (logsPath : string) (cfg : File)
    (modes : list string) :
  (∀ tr e, outcome ext tr e = None) →
  Forall (λ m, TrimSpace ext m ∈ handledModes
               ∧ is_Some (cfg !! ("log." +:+ TrimSpace ext m))) modes →
  ∀ acc s, ∃ hs s',
    configureModes ext dl df logsPath cfg modes acc s = (LoopDone (acc ++ hs), s')
    ∧ map val hs = map (λ m, Sink (handlerOf ext logsPath cfg (TrimSpace ext m))) modes
    ∧ heap s' = heap s ∧ root s' = root s
    ∧ loggersToClose s' =
        loggersToClose s ++
        filter (λ h, closable h = true)
               (map (λ m, handlerOf ext logsPath cfg (TrimSpace ext m)) modes).
Proof.
  intros Hok. induction 1 as [| mode modes [Hk [sec Hsec]] _ IH]; intros acc s.
  { exists [], s. cbn. by rewrite !app_nil_r. }
  cbn [configureModes]. unfold bind.
  pose proof (configureMode_found ext dl df logsPath cfg mode sec s Hsec) as Hc.
  cbn zeta in Hc. rewrite Hc. clear Hc.
  set (s3 := set_trace _ s).
  set (format := getLogFormat ext (MustString sec "format" "")).
  assert (Hb : ∃ s4,
    buildHandler ext (TrimSpace ext mode) logsPath sec format s3 =
      (Some (Some (Sink (handlerOf ext logsPath cfg (TrimSpace ext mode)))), s4)
    ∧ heap s4 = heap s ∧ root s4 = root s
    ∧ loggersToClose s4 =
        loggersToClose s ++
        filter (λ h, closable h = true) [handlerOf ext logsPath cfg (TrimSpace ext mode)]).
  { unfold handlerOf, Section_. rewrite Hsec. cbn [default]. fold format.
    unfold handledModes in Hk.
    apply elem_of_cons in Hk as [-> | Hk].
    { rewrite buildHandler_console. exists s3. cbn. by rewrite app_nil_r. }
    apply elem_of_cons in Hk as [-> | Hk].
    { pose proof (buildHandler_file ext logsPath sec format s3) as Hb.
      cbn zeta in Hb. rewrite Hb, !Hok. eexists. split; [reflexivity |]. done. }
    apply elem_of_cons in Hk as [-> | Hk]; [| by apply elem_of_nil in Hk].
    rewrite buildHandler_syslog. eexists. split; [reflexivity |]. done. }
  destruct Hb as (s4 & -> & Hh4 & Hr4 & Hc4). cbn [fst snd].
  match goal with
  | |- context [configureModes _ _ _ _ _ _ (acc ++ [?h]) s4] =>
      destruct (IH (acc ++ [h]) s4) as (hs & s' & -> & Hval & Hh & Hr & Hc);
      exists (h :: hs), s'
  end.
  rewrite <- app_assoc. split; [reflexivity |].
  cbn [map val]. rewrite Hval, Hh, Hr, Hc, Hh4, Hr4, Hc4.
  split; [done |]. split; [done |]. split; [done |].
  rewrite <- app_assoc. f_equal.
  rewrite !filter_cons, filter_nil. by case_decide.
Qed.

(** X13: when every action succeeds and each requested mode is
    console, file or syslog with a section of its own,
    [ReadLoggingConfig] returns nil and installs exactly one sink per
    requested mode, in the order of the modes, and its close list is the
    file and syslog handlers among them. *)
Theorem ReadLoggingConfig_installs_each_mode (ext : Externals) (modes : list string)
    (logsPath : string) (cfg : File) (s : State) :
  (∀ tr e, outcome ext tr e = None) →
  modes ≠ [] →
  Forall (λ m, TrimSpace ext m ∈ handledModes
               ∧ is_Some (cfg !! ("log." +:+ TrimSpace ext m))) modes →
  let res := ReadLoggingConfig ext modes logsPath cfg s in
  let handlers := map (λ m, handlerOf ext logsPath cfg (TrimSpace ext m)) modes in
  res.1 = Return None
  ∧ map val (logFilters (root res.2)) = map Sink handlers
  ∧ loggersToClose res.2 = filter (λ h, closable h = true) handlers.
Proof.
  intros Hok Hne Hmodes res handlers. subst res handlers.
  pose proof (Close_closed_form ext s) as HC.
  rewrite (outcomes_all_None _ _ _ _ Hok) in HC. cbn [head] in HC.
  pose proof (ReadLoggingConfig_after_Close ext modes logsPath cfg s _ HC) as HR.
  cbn zeta in HR. rewrite HR. clear HR.
  set (dl := ToLower ext _). set (df := list_to_map _). set (s3 := set_trace _ _).
  destruct (configureModes_all_built ext dl df logsPath cfg modes Hok Hmodes [] s3)
    as (hs & s4 & -> & Hval & Hh & Hr & Hc).
  cbn [fst snd app].
  assert (Hlen : 0 < length hs).
  { destruct modes; [done |]. destruct hs; [done | cbn; lia]. }
  rewrite decide_True by done. split; [done |].
  pose proof (initialize_root hs s4) as (_ & _ & -> & _ & Hrest).
  injection Hrest as -> _ _. rewrite Hc, map_map. by rewrite Hval.
Qed.

(** ** The shape of the registry *)

Lemma registry_shape_same_registry (s s' : State) :
  heap s' = heap s → root s' = root s → registry_shape s → registry_shape s'.
Proof. unfold registry_shape, all_registered, named_ctx, deref. by intros -> ->. Qed.

Lemma newManager_registry_shape (lg : Logger) : registry_shape (newManager lg).
Proof.
  split.
  - intros p Hp. cbn in *. left. lia.
  - intros name p Hp. cbn in Hp. by rewrite lookup_empty in Hp.
Qed.

Lemma New_registry_shape (c : list Value) (s : State) :
  wf s → registry_shape s → registry_shape (New c s).2.
Proof.
  intros [Hr Hn _] [Hall Hctx]. destruct c as [| [name | | |] rest]; try done.
  destruct (loggersByName (root s) !! name) as [q |] eqn:Hq.
  - by rewrite (New_existing _ _ _ _ Hq).
  - rewrite (New_fresh _ _ _ Hq). split.
    + intros p Hp. cbn in *. rewrite length_app in Hp. cbn in Hp.
      destruct (decide (p = length (heap s))) as [-> | Hne].
      * right. exists name. by rewrite lookup_insert_eq.
      * destruct (Hall p) as [-> | [n Hn']]; [lia | by left |].
        right. exists n. rewrite lookup_insert_ne; [done | congruence].
    + intros n p Hnp. cbn in Hnp.
      apply lookup_insert_Some in Hnp as [[<- <-] | [Hne Hp]]; unfold deref; cbn.
      * rewrite list_lookup_total_middle by done. by eexists.
      * rewrite lookup_total_app_l by (by eapply Hn). by apply Hctx.
Qed.

Lemma initialize_registry_shape (loggers : list LogWithFilters) (s : State) :
  registry_shape s → registry_shape (initialize loggers s).2.
Proof.
  intros [Hall Hctx].
  pose proof (initialize_root loggers s) as (Hr & Hm & _ & Hl & _).
  split.
  - intros p. rewrite Hl, Hr, Hm. apply Hall.
  - intros name p. rewrite Hm, initialize_ctx. apply Hctx.
Qed.

Lemma ConcreteLogger_New_registry_shape (p : nat) (c : list Value) (s : State) :
  p < length (heap s) → wf s → registry_shape s →
  registry_shape (ConcreteLogger_New p c s).2.
Proof.
  intros Hp [Hr Hn Hi] [Hall Hctx]. rewrite (ConcreteLogger_New_unfold _ _ _ Hp).
  apply New_registry_shape.
  - split; cbn; rewrite ?length_alter; done.
  - split.
    + intros q. cbn. rewrite length_alter. apply Hall.
    + intros name q Hq. cbn in Hq. destruct (Hctx name q Hq) as [rest Hrest].
      unfold deref in *. cbn. rewrite list_lookup_total_alt in *.
      rewrite list_lookup_alter. case_decide; [| by eexists]. subst.
      destruct (heap s !! q) as [cl |]; [| done]. cbn in *.
      unfold padded. rewrite Hrest. case_decide; by eexists.
Qed.

Lemma ReadLoggingConfig_registry_shape (ext : Externals) (modes : list string)
    (logsPath : string) (cfg : File) (s : State) :
  registry_shape s → registry_shape (ReadLoggingConfig ext modes logsPath cfg s).2.
Proof.
  intros Hs.
  destruct (Close ext s) as [[e |] s1] eqn:HC.
  { rewrite Close_closed_form in HC. injection HC as He _.
    rewrite (ReadLoggingConfig_Close_Some _ _ _ _ _ _ He).
    by apply (registry_shape_same_registry s). }
  pose proof (keeps_registry_Close ext s) as [Hh0 Hr0]. rewrite HC in Hh0, Hr0.
  pose proof (ReadLoggingConfig_after_Close ext modes logsPath cfg s s1 HC) as HR.
  cbn zeta in HR. rewrite HR. clear HR.
  set (dl := ToLower ext _). set (df := list_to_map _). set (s3 := set_trace _ s1).
  pose proof (keeps_registry_configureModes ext dl df logsPath cfg modes [] s3)
    as [Hh3 Hr3].
  assert (H4 : registry_shape (configureModes ext dl df logsPath cfg modes [] s3).2).
  { apply (registry_shape_same_registry s); [by rewrite Hh3 | by rewrite Hr3 | done]. }
  destruct (configureModes ext dl df logsPath cfg modes [] s3) as [[cl | err | m] s4];
    cbn [fst snd] in *; try done.
  case_decide; [by apply initialize_registry_shape | done].
Qed.

(** X14: every state the package reaches from [init] has a registry of
    one shape: each registered pointer is an object of the heap, two
    names never share an object, the root logger has no bound context
    and no name, every object is the root or registered, and a
    registered logger carries "logger" and its own name as its first
    context pair. *)
Theorem registry_invariant (ext : Externals) (s : State) :
  reachable ext s →
  wf s ∧ root_plain s ∧ all_registered s ∧ named_ctx s.
Proof.
  intros Hreach.
  split; [by eapply reachable_wf |]. split; [by eapply reachable_root_plain |].
  change (registry_shape s).
  induction Hreach as [| c s Hs IH | p c s Hs IH Hp | s _ IH | s _ IH
                       | modes logsPath cfg s _ IH].
  - apply newManager_registry_shape.
  - apply New_registry_shape; [by eapply reachable_wf | done].
  - apply ConcreteLogger_New_registry_shape; [done | by eapply reachable_wf | done].
  - by apply (registry_shape_same_registry s); [apply keeps_registry_Close
                                                | apply keeps_registry_Close |].
  - by apply (registry_shape_same_registry s); [apply keeps_registry_Reload
                                                | apply keeps_registry_Reload |].
  - by apply ReadLoggingConfig_registry_shape.
Qed.

(** ** Sample runs of the further properties *)

Lemma getFilters_closed_form_witness :
  (getFilters ["db:info"; "plugins"; "db:verbose"] (init Sample.ext)).1 !! "db"
    = Some AllowError
  ∧ getFilters ["db:info"; "plugins"] (init Sample.ext)
    = getFilters ["db:info"] (init Sample.ext).
Proof.
  destruct (getFilters_closed_form ["db:info"; "plugins"] (init Sample.ext))
    as (_ & Hlast & _).
  destruct (getFilters_closed_form ["db:info"] (init Sample.ext)) as (_ & _ & Hskip).
  split.
  - exact (Hlast "db:verbose" "db" "verbose" eq_refl).
  - exact (Hskip "plugins" eq_refl).
Defined.

Lemma ReadLoggingConfig_Close_error_witness :
  ReadLoggingConfig Sample2.ext_close_fails ["console"] "logs" Sample2.cfg
                    Sample2.with_syslog
  = (Return (Some (ErrText "file already closed")),
     set_trace [EvClose (HSyslog LogfmtLogger)] (init Sample2.ext_close_fails)).
Proof.
  exact (proj1 (ReadLoggingConfig_Close_error Sample2.ext_close_fails ["console"] "logs"
                  Sample2.cfg Sample2.with_syslog (ErrText "file already closed")
                  eq_refl)).
Defined.

Lemma ReadLoggingConfig_panics_on_unhandled_mode_witness :
  (ReadLoggingConfig Sample2.ext_ok ["console"; " journal"; "file"] "logs" Sample2.cfg
                     (init Sample2.ext_ok)).1 = Panic "journal".
Proof.
  assert (Hsec : is_Some (Sample2.cfg !! ("log." +:+ TrimSpace Sample2.ext_ok " journal")))
    by (by vm_compute; eexists).
  assert (Hmode : TrimSpace Sample2.ext_ok " journal" ∉ handledModes).
  { unfold handledModes. intros Hin.
    repeat (apply elem_of_cons in Hin as [Hin | Hin]; [by vm_compute in Hin |]).
    by apply elem_of_nil in Hin. }
  destruct (ReadLoggingConfig_panics_on_unhandled_mode Sample2.ext_ok ["console"]
              " journal" ["file"] "logs" Sample2.cfg (init Sample2.ext_ok) Hsec Hmode)
    as [_ Hres].
  refine (proj1 (Hres eq_refl _)).
  constructor; [| constructor]. split; [by left | by vm_compute; eexists].
Defined.


Lemma with_dropped_by_initialize_witness :
  (initialize [Sample.console]
     (with_ 1 With [VString "request"; VString "42"] registry_db).2).2
  = (initialize [Sample.console] registry_db).2.
Proof.
  assert (Hdb : loggersByName (root registry_db) !! "db" = Some 1) by (by vm_compute).
  exact (proj2 (proj2 (with_dropped_by_initialize 1 With
                         [VString "request"; VString "42"] [Sample.console] registry_db
                         (or_intror (ex_intro _ "db" Hdb))))).
Defined.

Lemma New_never_disturbs_witness :
  (New [VString "db"; VString "k"] registry_db).1 < 
    length (heap (New [VString "db"; VString "k"] registry_db).2).
Proof.
  destruct (New_never_disturbs [VString "db"; VString "k"] registry_db)
    as (_ & _ & _ & _ & _ & _ & Hin).
  exact (Hin registry_db_wf).
Defined.

Lemma New_initialize_commute_witness :
  (New [VString "alerting"] (initialize [Sample.console; Sample.file] registry_db).2).2
  = (initialize [Sample.console; Sample.file] (New [VString "alerting"] registry_db).2).2.
Proof.
  exact (proj2 (New_initialize_commute [VString "alerting"]
                  [Sample.console; Sample.file] registry_db registry_db_wf
                  ltac:(discriminate))).
Defined.

Lemma root_after_initialize_witness :
  logger (deref (initialize [Sample.console; Sample.file]
                   (New [VString "db"] (init Sample.ext)).2).2 0)
  = With (Composite [NewFilter (Sink (HConsole LogfmtLogger)) AllowInfo;
                     NewFilter (Sink (HFile "logs/grafana.log" LogfmtLogger)) AllowWarn])
         [].
Proof.
  exact (proj1 (proj2 (root_after_initialize Sample.ext [Sample.console; Sample.file]
                         (New [VString "db"] (init Sample.ext)).2
                         (reach_New Sample.ext _ _ (reach_init Sample.ext))))).
Defined.

Lemma ReadLoggingConfig_installs_each_mode_witness :
  let res := ReadLoggingConfig Sample2.ext_ok ["console"; "file"; "syslog"] "logs"
                               Sample2.cfg (init Sample2.ext_ok) in
  res.1 = Return None
  ∧ map val (logFilters (root res.2)) =
      [Sink (HConsole JSONLogger); Sink (HFile "logs/grafana.log" LogfmtLogger);
       Sink (HSyslog LogfmtLogger)]
  ∧ loggersToClose res.2 =
      [HFile "logs/grafana.log" LogfmtLogger; HSyslog LogfmtLogger].
Proof.
  assert (Hmodes : Forall (λ m, TrimSpace Sample2.ext_ok m ∈ handledModes
                                ∧ is_Some (Sample2.cfg !!
                                             ("log." +:+ TrimSpace Sample2.ext_ok m)))
                          ["console"; "file"; "syslog"]).
  { repeat constructor; by vm_compute; eexists. }
  exact (ReadLoggingConfig_installs_each_mode Sample2.ext_ok
           ["console"; "file"; "syslog"] "logs" Sample2.cfg (init Sample2.ext_ok)
           (λ _ _, eq_refl) ltac:(discriminate) Hmodes).
Defined.

Lemma registry_invariant_witness :
  let s := (ReadLoggingConfig Sample2.ext_ok ["console"] "logs" Sample2.cfg
              (New [VString "db"; VString "k"] (init Sample2.ext_ok)).2).2 in
  wf s ∧ root_plain s ∧ all_registered s ∧ named_ctx s.
Proof.
  exact (registry_invariant Sample2.ext_ok _
           (reach_ReadLoggingConfig Sample2.ext_ok ["console"] "logs" Sample2.cfg _
              (reach_New Sample2.ext_ok [VString "db"; VString "k"] _
                 (reach_init Sample2.ext_ok)))).
Defined.
